(** * maechaem_DB: the tree-survey recorder (src/App.tsx)

    A shallow embedding of the logic of [App.tsx]: the tree-code and
    tag-label previews, the record filter, the statistics snapshot, the
    join of the map layer, the reload of the two collections, the
    submission and the clearing of the form, with the two request helpers
    of [services/sheetsService] that the component calls.

    The JavaScript run time is modelled in [Module JS]:
    - a number is [JS.Number]: NaN, the two infinities, or a finite
      binary64 value, kept as the rational it stands for. A quotient and a
      product are rounded to binary64 as IEEE 754 rounds them, to the
      nearest value with ties to the even significand ([JS.binary64]).
      Every number of this program is a length, a count, or [Math.round]
      of a quotient of two lengths times 100; negative zero never arises
      and is not modelled;
    - a string is the Rocq [string] of the bytes of its UTF-8 form, which
      is how the source file and a Rocq literal hold it; [JS.length]
      counts the UTF-16 units that these bytes stand for;
    - an array is a [list];
    - an object used as a counter is the list of its own properties in
      creation order, [JS.Obj]; a read of a key it does not own goes to
      [Object.prototype]. *)

From Stdlib Require Import QArith Qround Qpower Lqa SpecFloat.
From Stdlib Require Import Ascii DecimalString DecimalNat.
From stdpp Require Import base list strings sorting.


(** ** The JavaScript run time *)

Module JS.

Inductive Number : Type :=
  | NaN
  | PosInfinity
  | NegInfinity
  | Finite (q : Q).

(** The number of a length or a count. An array has fewer than [2^32]
    elements, and every integer below [2^53] is a binary64 value. *)
Definition of_nat (n : nat) : Number := Finite (inject_Z (Z.of_nat n)).

(** *** Rounding to binary64 (IEEE 754, roundTiesToEven) *)

(** The integer nearest to [q]; of two that are equally near, the even
    one. *)
Definition roundTiesToEven (q : Q) : Z :=
  let f := Qfloor q in
  match (q - inject_Z f ?= 1 # 2)%Q with
  | Lt => f
  | Gt => (f + 1)%Z
  | Eq => if Z.even f then f else (f + 1)%Z
  end.

(** The exponent [e] of the binade of a positive [q]:
    [2^e <= q < 2^(e+1)]. *)
Definition binade (q : Q) : Z :=
  let e := (Z.log2 (Qnum q) - Z.log2 (Z.pos (Qden q)))%Z in
  if Qle_bool (2 ^ e) q then e else (e - 1)%Z.

(** The binary64 value of a positive [q]. The significand has 53 bits,
    so the values of the binade of exponent [e] are the multiples of
    [2^(e-52)]; below [2^(-1022)] they are the multiples of [2^(-1074)]
    (the subnormal numbers and zero). [q] goes to the nearest multiple,
    and to infinity ([inr]) when that is [2^1024] or more. *)
Definition binary64_pos (q : Q) : Q + unit :=
  let ulp := (2 ^ Z.max (binade q - 52) (-1074))%Q in
  let v := (inject_Z (roundTiesToEven (q / ulp)) * ulp)%Q in
  if Qle_bool (2 ^ 1024) v then inr () else inl v.

(** The binary64 value of the exact result [q] of an operation. *)
Definition binary64 (q : Q) : Number :=
  match (q ?= 0)%Q with
  | Eq => Finite 0
  | Gt => match binary64_pos q with
          | inl v => Finite v
          | inr _ => PosInfinity
          end
  | Lt => match binary64_pos (- q) with
          | inl v => Finite (- v)
          | inr _ => NegInfinity
          end
  end.

(** [x / y]. A finite non-zero value over zero is an infinity, zero over
    zero is NaN; a finite quotient is rounded. *)
Definition div (x y : Number) : Number :=
  match x, y with
  | NaN, _ | _, NaN => NaN
  | Finite a, Finite b =>
      if Qeq_bool b 0%Q
      then (if Qeq_bool a 0%Q then NaN
            else if Qle_bool 0%Q a then PosInfinity else NegInfinity)
      else binary64 (a / b)
  | Finite _, _ => Finite 0%Q
  | PosInfinity, Finite b => if Qle_bool 0%Q b then PosInfinity else NegInfinity
  | NegInfinity, Finite b => if Qle_bool 0%Q b then NegInfinity else PosInfinity
  | _, _ => NaN
  end.

(** [x * y]. An infinity times zero is NaN; a finite product is
    rounded. *)
Definition mul (x y : Number) : Number :=
  let inf_times (pos : bool) (b : Q) :=
    if Qeq_bool b 0%Q then NaN
    else if Bool.eqb pos (Qle_bool 0%Q b) then PosInfinity else NegInfinity in
  match x, y with
  | NaN, _ | _, NaN => NaN
  | Finite a, Finite b => binary64 (a * b)
  | PosInfinity, Finite b | Finite b, PosInfinity => inf_times true b
  | NegInfinity, Finite b | Finite b, NegInfinity => inf_times false b
  | PosInfinity, PosInfinity | NegInfinity, NegInfinity => PosInfinity
  | _, _ => NegInfinity
  end.

(** ToBoolean on a number: NaN and zero are falsy. *)
Definition truthy (x : Number) : bool :=
  match x with
  | NaN => false
  | Finite q => negb (Qeq_bool q 0%Q)
  | _ => true
  end.

(** [x || y] on numbers. *)
Definition or (x y : Number) : Number := if truthy x then x else y.

(** [Math.round]: the nearest integer, a half going up; NaN and the
    infinities are returned as they are. The sum under the floor is the
    exact one: [Math.round] does not add in binary64, and its result, an
    integer no larger in size than its argument, is a binary64 value. *)
Definition Math_round (x : Number) : Number :=
  match x with
  | Finite q => Finite (inject_Z (Qfloor (q + (1 # 2))%Q))
  | _ => x
  end.

(** ToBoolean on a string: only the empty string is falsy. *)
Definition nonempty (s : string) : bool :=
  match s with
  | EmptyString => false
  | String _ _ => true
  end.

(** The UTF-16 units of the character that a byte of the UTF-8 form
    starts: one for a character of one, two or three bytes, two for a
    character of four bytes (a character beyond U+FFFF, which UTF-16
    writes as a surrogate pair), and none for a byte that continues a
    character. *)
Definition units (c : ascii) : nat :=
  let b := nat_of_ascii c in
  if (b <? 128)%nat then 1
  else if (b <? 192)%nat then 0
  else if (b <? 240)%nat then 1
  else 2.

(** [s.length]: the number of UTF-16 units of [s]. *)
Fixpoint length (s : string) : nat :=
  match s with
  | EmptyString => 0
  | String c s' => units c + length s'
  end.

(** [s.substring(0, n)], with [n] in UTF-16 units, for a cut that falls
    between two characters. (A cut inside a surrogate pair leaves half a
    character, which has no UTF-8 form: the character is left out here.
    The only string that this program cuts is made of the digit 0.) *)
Fixpoint substring0 (n : nat) (s : string) : string :=
  match s with
  | EmptyString => EmptyString
  | String c s' =>
      if (units c <=? n)%nat then String c (substring0 (n - units c) s')
      else EmptyString
  end.

(** [String.prototype.repeat]. *)
Fixpoint repeat (s : string) (count : nat) : string :=
  match count with
  | O => ""
  | S n => s +:+ repeat s n
  end.

(** [s.padStart(targetLength, padString)]: when [s] has fewer units
    than [targetLength], the pad string is repeated, cut to the missing
    length and put in front; an empty pad string pads nothing. *)
Definition padStart (s : string) (targetLength : nat) (padString : string)
  : string :=
  let stringLength := length s in
  if (targetLength <=? stringLength)%nat then s
  else if nonempty padString then
    let fillLen := targetLength - stringLength in
    substring0 fillLen (repeat padString fillLen) +:+ s
  else s.

(** [s.includes(searchString)]: [searchString] starts at some position
    of [s]. *)
Fixpoint includes (s searchString : string) : bool :=
  String.prefix searchString s ||
  match s with
  | EmptyString => false
  | String _ s' => includes s' searchString
  end.

(** [String(n)] of a non-negative integer: its decimal numeral. *)
Definition toString (n : nat) : string :=
  NilZero.string_of_uint (Nat.to_uint n).

(** [String.prototype.toLowerCase] follows the Unicode case tables, which
    are no part of this repository: it is a parameter of the model. *)
Class CaseMapping := toLowerCase : string → string.

(** The mapping on ASCII text: the letters A to Z go to a to z. *)
Definition ascii_toLowerCase_char (c : ascii) : ascii :=
  let n := nat_of_ascii c in
  if (65 <=? n)%nat && (n <=? 90)%nat then ascii_of_nat (n + 32) else c.

Fixpoint ascii_toLowerCase (s : string) : string :=
  match s with
  | EmptyString => EmptyString
  | String c s' => String (ascii_toLowerCase_char c) (ascii_toLowerCase s')
  end.

(** *** Arrays *)

(** [Array.prototype.find]: the first element that satisfies [p], in
    index order, or undefined ([None]). *)
Fixpoint find {A} (p : A → bool) (l : list A) : option A :=
  match l with
  | [] => None
  | x :: l' => if p x then Some x else find p l'
  end.

(** [l.slice(0, n)]. *)
Definition slice0 {A} (n : nat) (l : list A) : list A := take n l.

(** [Array.prototype.sort] with a comparator. The sort is stable
    (ECMAScript 2019), so for a consistent comparator its result is
    determined: it is the list that insertion from the right builds, a
    new element going in front of the first element it does not have to
    follow. (For a comparator that is not consistent the language leaves
    the order to the engine; the results on sorting below are for
    comparators that order by a key.) *)
Fixpoint sort_insert {A} (cmp : A → A → Z) (x : A) (l : list A) : list A :=
  match l with
  | [] => [x]
  | y :: l' => if (0 <? cmp x y)%Z then y :: sort_insert cmp x l' else x :: l
  end.

Definition sort {A} (cmp : A → A → Z) (l : list A) : list A :=
  foldr (sort_insert cmp) [] l.

(** *** Objects used as maps *)

(** The own properties of an object, in creation order. *)
Definition Obj (V : Type) : Type := list (string * V).

(** The own property [k] of [o], if there is one. *)
Fixpoint own {V} (o : Obj V) (k : string) : option V :=
  match o with
  | [] => None
  | (k', v) :: o' => if String.eqb k' k then Some v else own o' k
  end.

(** The names of the members of [Object.prototype], which every object
    literal inherits. *)
Definition Object_prototype_names : list string :=
  [ "constructor"; "hasOwnProperty"; "isPrototypeOf"; "propertyIsEnumerable";
    "toLocaleString"; "toString"; "valueOf"; "__proto__";
    "__defineGetter__"; "__defineSetter__";
    "__lookupGetter__"; "__lookupSetter__" ].

(** What the read [o[k]] finds: an own property; or, for a key that [o]
    does not own, a member of [Object.prototype] (a function, or the
    prototype itself for ["__proto__"]); or nothing (undefined). *)
Inductive Lookup (V : Type) : Type :=
  | Own (v : V)
  | Inherited
  | Undefined.
Arguments Own {V} v.
Arguments Inherited {V}.
Arguments Undefined {V}.

Definition get {V} (o : Obj V) (k : string) : Lookup V :=
  match own o k with
  | Some v => Own v
  | None =>
      if bool_decide (k ∈ Object_prototype_names) then Inherited
      else Undefined
  end.

(** [o[k] = v] for a value [v] that is a number or a string: an existing
    property keeps its place, a new one is created last. The key
    ["__proto__"] is an accessor of [Object.prototype] whose setter
    ignores a value that is not an object, so no property is created. *)
Fixpoint set_own {V} (o : Obj V) (k : string) (v : V) : Obj V :=
  match o with
  | [] => [(k, v)]
  | (k', v') :: o' =>
      if String.eqb k' k then (k', v) :: o' else (k', v') :: set_own o' k v
  end.

Definition set {V} (o : Obj V) (k : string) (v : V) : Obj V :=
  if String.eqb k "__proto__" then o else set_own o k v.

(** An array index is the canonical decimal numeral of an integer from 0
    to 2^32 - 2. *)
Definition arrayIndex (k : string) : option N :=
  match NilEmpty.uint_of_string k with
  | Some d =>
      let n := N.of_uint d in
      if String.eqb (NilZero.string_of_uint (N.to_uint n)) k
         && (n <? 2 ^ 32 - 1)%N
      then Some n else None
  | None => None
  end.

Definition isArrayIndex (k : string) : bool :=
  match arrayIndex k with Some _ => true | None => false end.

Definition indexValue (k : string) : Z :=
  match arrayIndex k with Some n => Z.of_N n | None => 0 end.

(** [Object.keys(o)]: the own keys that are array indices, in ascending
    numeric order, then the other keys in creation order. *)
Definition Object_keys {V} (o : Obj V) : list string :=
  let own := o.*1 in
  sort (λ a b, indexValue a - indexValue b)%Z (List.filter isArrayIndex own)
  ++ List.filter (λ k, negb (isArrayIndex k)) own.

End JS.

(** ** The records (types.ts) *)

Inductive SpeciesGroup : Type := GroupA | GroupB.

(** A status: the string ['alive'] or ['dead']. *)
Module Status.
Inductive t : Type := alive | dead.

Definition to_string (st : t) : string :=
  match st with
  | alive => "alive"
  | dead => "dead"
  end.

Definition eqb (a b : t) : bool :=
  match a, b with
  | alive, alive | dead, dead => true
  | _, _ => false
  end.
End Status.

(** [string | number | null], the type of [dbh_cm] and [height_m]; in
    [CoordRecord] the optional [tree_number] is [string | number] and
    [MNull] stands for its absence. *)
Inductive Measure : Type :=
  | MString (s : string)
  | MNumber (x : JS.Number)
  | MNull.

Module TreeRecord.
Record t : Type := mk {
  id : JS.Number;
  log_id : option string;
  tree_code : string;
  tag_label : string;
  plot_code : string;
  species_code : string;
  species_group : SpeciesGroup;
  species_name : string;
  tree_number : JS.Number;
  row_main : string;
  row_sub : string;
  dbh_cm : Measure;
  height_m : Measure;
  status : option Status.t;
  note : string;
  recorder : string;
  survey_date : string;
  timestamp : string
}.
End TreeRecord.

Module CoordRecord.
Record t : Type := mk {
  tree_code : string;
  tag_label : option string;
  plot_code : string;
  species_code : option string;
  species_group : option string;
  species_name : option string;
  tree_number : Measure;
  row_main : option string;
  row_sub : option string;
  utm_x : JS.Number;
  utm_y : JS.Number;
  lat : JS.Number;
  lng : JS.Number;
  note : option string
}.
End CoordRecord.

Module ViewType.
Inductive t : Type := table | coords | map | stats.
End ViewType.

(** ** The state of [App]

    The component keeps its state in [useState] hooks, which the source
    lists in three groups: the data and the view, the form, the filters. *)

Module ToastType.
Inductive t : Type := success | error | info.
End ToastType.

Record Toast : Type := { msg : string; type : ToastType.t }.

Module GrowthMode.
Inductive t : Type := new | update.
End GrowthMode.

Record FormState : Type := {
  plotCode : string;
  treeNumber : string;
  speciesCode : string;
  rowMain : string;
  rowSub : string;
  dbhCm : string;
  heightM : string;
  status : option Status.t;
  note : string;
  recorder : string;
  surveyDate : string;
  growthMode : GrowthMode.t;
  selectedUpdateTree : string
}.

Record FilterState : Type := {
  searchTerm : string;
  plotFilter : string;
  statusFilter : string
}.

Record AppState : Type := {
  records : list TreeRecord.t;
  coordRecords : list CoordRecord.t;
  activeView : ViewType.t;
  isLoading : bool;
  toast : option Toast;
  form : FormState;
  filters : FilterState
}.

(** The setters of the hooks that the modelled actions call. *)

Definition setRecords (v : list TreeRecord.t) (s : AppState) : AppState :=
  {| records := v; coordRecords := coordRecords s;
     activeView := activeView s; isLoading := isLoading s; toast := toast s;
     form := form s; filters := filters s |}.

Definition setCoordRecords (v : list CoordRecord.t) (s : AppState)
  : AppState :=
  {| records := records s; coordRecords := v;
     activeView := activeView s; isLoading := isLoading s; toast := toast s;
     form := form s; filters := filters s |}.

Definition setIsLoading (v : bool) (s : AppState) : AppState :=
  {| records := records s; coordRecords := coordRecords s;
     activeView := activeView s; isLoading := v; toast := toast s;
     form := form s; filters := filters s |}.

Definition setToast (v : option Toast) (s : AppState) : AppState :=
  {| records := records s; coordRecords := coordRecords s;
     activeView := activeView s; isLoading := isLoading s; toast := v;
     form := form s; filters := filters s |}.

Definition setForm (f : FormState → FormState) (s : AppState) : AppState :=
  {| records := records s; coordRecords := coordRecords s;
     activeView := activeView s; isLoading := isLoading s; toast := toast s;
     form := f (form s); filters := filters s |}.

Definition setPlotCode (v : string) : AppState → AppState :=
  setForm (λ f,
    {| plotCode := v; treeNumber := treeNumber f;
       speciesCode := speciesCode f; rowMain := rowMain f; rowSub := rowSub f;
       dbhCm := dbhCm f; heightM := heightM f; status := status f;
       note := note f; recorder := recorder f; surveyDate := surveyDate f;
       growthMode := growthMode f;
       selectedUpdateTree := selectedUpdateTree f |}).

Definition setTreeNumber (v : string) : AppState → AppState :=
  setForm (λ f,
    {| plotCode := plotCode f; treeNumber := v;
       speciesCode := speciesCode f; rowMain := rowMain f; rowSub := rowSub f;
       dbhCm := dbhCm f; heightM := heightM f; status := status f;
       note := note f; recorder := recorder f; surveyDate := surveyDate f;
       growthMode := growthMode f;
       selectedUpdateTree := selectedUpdateTree f |}).

Definition setSpeciesCode (v : string) : AppState → AppState :=
  setForm (λ f,
    {| plotCode := plotCode f; treeNumber := treeNumber f;
       speciesCode := v; rowMain := rowMain f; rowSub := rowSub f;
       dbhCm := dbhCm f; heightM := heightM f; status := status f;
       note := note f; recorder := recorder f; surveyDate := surveyDate f;
       growthMode := growthMode f;
       selectedUpdateTree := selectedUpdateTree f |}).

Definition setRowMain (v : string) : AppState → AppState :=
  setForm (λ f,
    {| plotCode := plotCode f; treeNumber := treeNumber f;
       speciesCode := speciesCode f; rowMain := v; rowSub := rowSub f;
       dbhCm := dbhCm f; heightM := heightM f; status := status f;
       note := note f; recorder := recorder f; surveyDate := surveyDate f;
       growthMode := growthMode f;
       selectedUpdateTree := selectedUpdateTree f |}).

Definition setRowSub (v : string) : AppState → AppState :=
  setForm (λ f,
    {| plotCode := plotCode f; treeNumber := treeNumber f;
       speciesCode := speciesCode f; rowMain := rowMain f; rowSub := v;
       dbhCm := dbhCm f; heightM := heightM f; status := status f;
       note := note f; recorder := recorder f; surveyDate := surveyDate f;
       growthMode := growthMode f;
       selectedUpdateTree := selectedUpdateTree f |}).

Definition setDbhCm (v : string) : AppState → AppState :=
  setForm (λ f,
    {| plotCode := plotCode f; treeNumber := treeNumber f;
       speciesCode := speciesCode f; rowMain := rowMain f; rowSub := rowSub f;
       dbhCm := v; heightM := heightM f; status := status f;
       note := note f; recorder := recorder f; surveyDate := surveyDate f;
       growthMode := growthMode f;
       selectedUpdateTree := selectedUpdateTree f |}).

Definition setHeightM (v : string) : AppState → AppState :=
  setForm (λ f,
    {| plotCode := plotCode f; treeNumber := treeNumber f;
       speciesCode := speciesCode f; rowMain := rowMain f; rowSub := rowSub f;
       dbhCm := dbhCm f; heightM := v; status := status f;
       note := note f; recorder := recorder f; surveyDate := surveyDate f;
       growthMode := growthMode f;
       selectedUpdateTree := selectedUpdateTree f |}).

Definition setStatus (v : option Status.t) : AppState → AppState :=
  setForm (λ f,
    {| plotCode := plotCode f; treeNumber := treeNumber f;
       speciesCode := speciesCode f; rowMain := rowMain f; rowSub := rowSub f;
       dbhCm := dbhCm f; heightM := heightM f; status := v;
       note := note f; recorder := recorder f; surveyDate := surveyDate f;
       growthMode := growthMode f;
       selectedUpdateTree := selectedUpdateTree f |}).

Definition setNote (v : string) : AppState → AppState :=
  setForm (λ f,
    {| plotCode := plotCode f; treeNumber := treeNumber f;
       speciesCode := speciesCode f; rowMain := rowMain f; rowSub := rowSub f;
       dbhCm := dbhCm f; heightM := heightM f; status := status f;
       note := v; recorder := recorder f; surveyDate := surveyDate f;
       growthMode := growthMode f;
       selectedUpdateTree := selectedUpdateTree f |}).

(** ** Actions

    An action runs on the state and either returns or throws, as the
    [async] functions of the source do. What the outside world answers to
    a request is given to the action as the settled promise. *)

Inductive Completion (A : Type) : Type :=
  | Return (a : A)
  | Throw (message : string).
Arguments Return {A} a.
Arguments Throw {A} message.

Definition Eff (A : Type) : Type := AppState → AppState * Completion A.

Definition ret {A} (a : A) : Eff A := λ s, (s, Return a).

Definition bind {A B} (m : Eff A) (k : A → Eff B) : Eff B :=
  λ s, match m s with
       | (s', Return a) => k a s'
       | (s', Throw e) => (s', Throw e)
       end.

(** A state update of a hook setter. *)
Definition update (f : AppState → AppState) : Eff unit := λ s, (f s, Return ()).

Definition getState : Eff AppState := λ s, (s, Return s).

(** [try { body } catch (err) { handler(err.message) }]. *)
Definition try_catch {A} (body : Eff A) (handler : string → Eff A) : Eff A :=
  λ s, match body s with
       | (s', Return a) => (s', Return a)
       | (s', Throw e) => handler e s'
       end.

(** [try { body } finally { cleanup }]: the cleanup runs either way and
    the completion of the body is kept. *)
Definition try_finally {A} (body : Eff A) (cleanup : Eff unit) : Eff A :=
  λ s, match body s with
       | (s', c) =>
           match cleanup s' with
           | (s'', Return _) => (s'', c)
           | (s'', Throw e) => (s'', Throw e)
           end
       end.

(** [if (c) { m }]. *)
Definition when (c : bool) (m : Eff unit) : Eff unit :=
  if c then m else ret ().

Declare Scope eff_scope.
Delimit Scope eff_scope with eff.
Bind Scope eff_scope with Eff.
Notation "'let!' x := m 'in' k" := (bind m (λ x, k))
  (at level 10, x pattern, m at level 100, k at level 200) : eff_scope.
Notation "m ;; k" := (bind m (λ _, k))
  (at level 100, k at level 200, right associativity) : eff_scope.

(** A promise once settled. *)
Inductive Promise (A : Type) : Type :=
  | Fulfilled (a : A)
  | Rejected (message : string).
Arguments Fulfilled {A} a.
Arguments Rejected {A} message.

(** [await p]. *)
Definition await {A} (p : Promise A) : Eff A :=
  match p with
  | Fulfilled a => ret a
  | Rejected e => λ s, (s, Throw e)
  end.

(** What [apiGet] resolves to: the parsed body [{success, data}]. It
    rejects, with a message, on a network error, on a status that is not
    2xx and on a body that is not JSON. *)
Record GetResponse (A : Type) : Type := { get_success : bool; data : A }.
Arguments get_success {A} _.
Arguments data {A} _.

(** What [apiPost] resolves to (it catches its own errors). *)
Record PostResponse : Type := { post_success : bool }.

(** [showToast] sets the toast; the timer that clears it three seconds
    later is an event of its own, [toastTimeout]. *)
Definition showToast (m : string) (ty : ToastType.t) : Eff unit :=
  update (setToast (Some {| msg := m; type := ty |})).

Definition toastTimeout : Eff unit := update (setToast None).

Section Actions.
Local Open Scope eff_scope.

(** [fetchData], given what the two requests settle to. *)
Definition fetchData
    (growth : Promise (GetResponse (list TreeRecord.t)))
    (coord : Promise (GetResponse (list CoordRecord.t))) : Eff unit :=
  update (setIsLoading true) ;;
  try_finally
    (try_catch
       (let! growthRes := await growth in
        when (get_success growthRes) (update (setRecords (data growthRes))) ;;
        let! coordRes := await coord in
        when (get_success coordRes)
             (update (setCoordRecords (data coordRes))) ;;
        showToast "Data synced with cloud" ToastType.success)
       (λ err, showToast ("Sync failed: " +:+ err) ToastType.error))
    (update (setIsLoading false)).

Definition clearForm : Eff unit :=
  update (setPlotCode "") ;;
  update (setTreeNumber "") ;;
  update (setSpeciesCode "") ;;
  update (setRowMain "") ;;
  update (setRowSub "") ;;
  update (setDbhCm "") ;;
  update (setHeightM "") ;;
  update (setStatus None) ;;
  update (setNote "").
End Actions.

(** ** Derived data *)

(** The placeholder of an incomplete tree code or tag label, the literal
    of lines 112, 117 and 707 as the source file has it: the three
    characters U+201A, U+00C4 and U+00EE (the bytes E2 80 9A C3 84 C3 AE
    in UTF-8). *)
Definition placeholder : string := "‚Äî".

(** [treeCodePreview], as a function of the three hooks it depends on.
    [treeNumber] is the text of the number input, so [toString] on it is
    the identity. *)
Definition treeCodePreview (plotCode speciesCode treeNumber : string)
  : string :=
  if negb (JS.nonempty plotCode) || negb (JS.nonempty speciesCode)
     || negb (JS.nonempty treeNumber)
  then placeholder
  else plotCode +:+ speciesCode +:+ JS.padStart treeNumber 3 "0".

Section Submit.
Local Open Scope eff_scope.

(** [handleSubmit], given what the write and the reload settle to. The
    record sent is built from the form and does not come back into the
    state, so the request is represented by its outcome. [fetchData()]
    is called without [await]: what it does after its first request runs
    once [handleSubmit] is over; the only hook both write is [isLoading],
    which both leave [false], so running it in place ends in the same
    state. *)
Definition handleSubmit
    (post : Promise PostResponse)
    (growth : Promise (GetResponse (list TreeRecord.t)))
    (coord : Promise (GetResponse (list CoordRecord.t))) : Eff unit :=
  let! s := getState in
  let f := form s in
  if negb (JS.nonempty (plotCode f)) || negb (JS.nonempty (speciesCode f))
     || negb (JS.nonempty (treeNumber f)) || negb (JS.nonempty (rowMain f))
     || negb (JS.nonempty (rowSub f)) || negb (JS.nonempty (recorder f))
  then showToast "Please fill all required fields" ToastType.error
  else
    let treeCode :=
      treeCodePreview (plotCode f) (speciesCode f) (treeNumber f) in
    update (setIsLoading true) ;;
    try_finally
      (try_catch
         (let! res := await post in
          when (post_success res)
            (showToast ("Saved " +:+ treeCode) ToastType.success ;;
             clearForm ;;
             fetchData growth coord))
         (λ _, showToast "Error saving data" ToastType.error))
      (update (setIsLoading false)).
End Submit.

Section Filter.
Context `{JS.CaseMapping}.

(** The predicate of [filteredRecords] on one record. [tree_code] and
    [species_name] are strings in every record, so the optional chaining
    on them never cuts the call short. *)
Definition matchesFilters (searchTerm plotFilter statusFilter : string)
    (r : TreeRecord.t) : bool :=
  let matchesSearch :=
    negb (JS.nonempty searchTerm)
    || JS.includes (JS.toLowerCase (TreeRecord.tree_code r))
                   (JS.toLowerCase searchTerm)
    || JS.includes (JS.toLowerCase (TreeRecord.species_name r))
                   (JS.toLowerCase searchTerm) in
  let matchesPlot :=
    negb (JS.nonempty plotFilter)
    || String.eqb (TreeRecord.plot_code r) plotFilter in
  let matchesStatus :=
    negb (JS.nonempty statusFilter)
    || match TreeRecord.status r with
       | Some st => String.eqb (Status.to_string st) statusFilter
       | None => false
       end in
  matchesSearch && matchesPlot && matchesStatus.

Definition filteredRecords (records : list TreeRecord.t)
    (searchTerm plotFilter statusFilter : string) : list TreeRecord.t :=
  List.filter (matchesFilters searchTerm plotFilter statusFilter) records.
End Filter.

(** ** Statistics *)

(** The value of a property of a counting object: a count, or the
    string that [+ 1] makes of a value that is not a number (its text
    depends on the engine and is not kept). *)
Inductive CountValue : Type :=
  | Count (n : nat)
  | NotANumber.

(** An entry of a chart: [{name, value}]. *)
Record Entry : Type := { name : string; value : CountValue }.

(** [(v || 0) + 1] for what the read of a counter finds: undefined and 0
    give 1, a count [n] gives [n + 1]; an inherited function or object
    and a string are truthy and [+] appends ["1"] to their text. *)
Definition increment (v : JS.Lookup CountValue) : CountValue :=
  match v with
  | JS.Own (Count n) => Count (n + 1)
  | JS.Undefined => Count 1
  | JS.Own NotANumber | JS.Inherited => NotANumber
  end.

(** The counting loop [records.forEach(r => counts[k] = (counts[k] || 0) + 1)]
    over the keys of the records. *)
Definition countStep (counts : JS.Obj CountValue) (k : string)
  : JS.Obj CountValue :=
  JS.set counts k (increment (JS.get counts k)).

Definition countKeys (ks : list string) : JS.Obj CountValue :=
  foldl countStep [] ks.

(** [Object.keys(counts).forEach(name => data.push({name, value: counts[name]}))].
    Every key that [Object.keys] lists is an own property, so the read
    finds its value. *)
Definition chartData (counts : JS.Obj CountValue) : list Entry :=
  (λ k, {| name := k;
           value := match JS.get counts k with
                    | JS.Own v => v
                    | _ => NotANumber
                    end |})
    <$> JS.Object_keys counts.

(** The comparator [(a, b) => b.value - a.value] as the sort reads it:
    the difference of two counts, and 0 where the difference is NaN. *)
Definition byValueDesc (a b : Entry) : Z :=
  match value a, value b with
  | Count x, Count y => (Z.of_nat y - Z.of_nat x)%Z
  | _, _ => 0%Z
  end.

(** [r.status === st]. *)
Definition hasStatus (st : Status.t) (r : TreeRecord.t) : bool :=
  match TreeRecord.status r with
  | Some s => Status.eqb s st
  | None => false
  end.

(** [total ? Math.round((n / total) * 100) : 0]. *)
Definition pct (n total : nat) : JS.Number :=
  if JS.truthy (JS.of_nat total)
  then JS.Math_round (JS.mul (JS.div (JS.of_nat n) (JS.of_nat total))
                             (JS.of_nat 100))
  else JS.of_nat 0.

Record Stats : Type := {
  total : nat;
  alive : nat;
  dead : nat;
  alivePct : JS.Number;
  deadPct : JS.Number;
  speciesData : list Entry;
  plotData : list Entry
}.

(** The memo [stats]. *)
Definition stats (records : list TreeRecord.t) : Stats :=
  let total := length records in
  let alive := length (List.filter (hasStatus Status.alive) records) in
  let dead := length (List.filter (hasStatus Status.dead) records) in
  let speciesData :=
    chartData (countKeys (TreeRecord.species_name <$> records)) in
  let plotData := chartData (countKeys (TreeRecord.plot_code <$> records)) in
  {| total := total;
     alive := alive;
     dead := dead;
     alivePct := pct alive total;
     deadPct := pct dead total;
     speciesData := JS.slice0 10 (JS.sort byValueDesc speciesData);
     plotData := JS.sort byValueDesc plotData |}.

(** The share of trees with a coordinate, as the statistics view prints
    it: [Math.round((coordRecords.length / stats.total) * 100 || 0)]. *)
Definition coordinateCoveragePct (records : list TreeRecord.t)
    (coordRecords : list CoordRecord.t) : JS.Number :=
  JS.Math_round
    (JS.or (JS.mul (JS.div (JS.of_nat (length coordRecords))
                           (JS.of_nat (total (stats records))))
                   (JS.of_nat 100))
           (JS.of_nat 0)).

(** ** The map layer *)

(** What the map layer derives for the marker of one coordinate record. *)
Record Marker : Type := {
  growthRec : option TreeRecord.t;
  isAlive : bool;
  isDead : bool;
  color : string;
  statusClass : string;
  statusText : string
}.

(** The growth record of a coordinate record:
    [records.find(g => g.tree_code === r.tree_code)]. *)
Definition resolveGrowthFor (r : CoordRecord.t) (records : list TreeRecord.t)
  : option TreeRecord.t :=
  JS.find (λ g, String.eqb (TreeRecord.tree_code g) (CoordRecord.tree_code r))
          records.

(** The status texts of the popup, the literals of line 707 as the
    source file has them: nine characters each. *)
Definition text_alive : string := "‡∏£‡∏≠‡∏î".

Definition text_dead : string := "‡∏ï‡∏≤‡∏¢".

Definition marker (r : CoordRecord.t) (records : list TreeRecord.t) : Marker :=
  let growthRec := resolveGrowthFor r records in
  let isAlive :=
    match growthRec with Some g => hasStatus Status.alive g | None => false end in
  let isDead :=
    match growthRec with Some g => hasStatus Status.dead g | None => false end in
  {| growthRec := growthRec;
     isAlive := isAlive;
     isDead := isDead;
     color := if isAlive then "#22c55e"
              else if isDead then "#ef4444" else "#9ca3af";
     statusClass := if isAlive then "text-green-600"
                    else if isDead then "text-red-600" else "text-gray-400";
     statusText := if isAlive then text_alive
                   else if isDead then text_dead else placeholder |}.

(** ** The tag label *)

(** The catalogs of constants.ts, which is not among the sources: they
    are parameters of the model. The component reads the fields [code],
    [name] and [short] of a plot and [code], [name] and [group] of a
    species ([SpeciesInfo] of types.ts). *)
Module PlotInfo.
Record t : Type := mk { code : string; name : string; short : string }.
End PlotInfo.

Module SpeciesInfo.
Record t : Type := mk { code : string; name : string; group : SpeciesGroup }.
End SpeciesInfo.

Class Catalog : Type := {
  PLOT_LIST : list PlotInfo.t;
  SPECIES_LIST : list SpeciesInfo.t
}.

(** [x || y] where [x] is a string or undefined ([None]): [y] replaces
    undefined and the empty string. *)
Definition orString (x : option string) (y : string) : string :=
  match x with
  | Some s => if JS.nonempty s then s else y
  | None => y
  end.

Section TagLabel.
Context `{Catalog}.

(** [tagLabelPreview], as a function of the five hooks it depends on.
    [rowMain] is a string, so [toString] on it is the identity. *)
Definition tagLabelPreview
    (plotCode speciesCode treeNumber rowMain rowSub : string) : string :=
  if negb (JS.nonempty plotCode) || negb (JS.nonempty speciesCode)
     || negb (JS.nonempty treeNumber) || negb (JS.nonempty rowMain)
     || negb (JS.nonempty rowSub)
  then placeholder
  else
    let plot :=
      JS.find (λ p, String.eqb (PlotInfo.code p) plotCode) PLOT_LIST in
    let species :=
      JS.find (λ s, String.eqb (SpeciesInfo.code s) speciesCode)
              SPECIES_LIST in
    let mainPad := JS.padStart rowMain 2 "0" in
    treeNumber +:+ " " +:+ orString (PlotInfo.short <$> plot) plotCode
    +:+ " " +:+ mainPad +:+ " (" +:+ rowSub +:+ ") "
    +:+ orString (SpeciesInfo.name <$> species) speciesCode.
End TagLabel.

(** ** The group counts of the statistics view *)

Definition SpeciesGroup_eqb (a b : SpeciesGroup) : bool :=
  match a, b with
  | GroupA, GroupA | GroupB, GroupB => true
  | _, _ => false
  end.

(** [records.filter(r => r.species_group === g).length]. *)
Definition groupCount (g : SpeciesGroup) (records : list TreeRecord.t) : nat :=
  length (List.filter
            (λ r, SpeciesGroup_eqb (TreeRecord.species_group r) g) records).

(** ** The service (services/sheetsService)

    The two functions are [async] and touch no state of the component:
    each is a function from what its [fetch] settles to, to what it
    settles to itself. *)

Definition Promise_bind {A B} (p : Promise A) (k : A → Promise B)
  : Promise B :=
  match p with
  | Fulfilled a => k a
  | Rejected e => Rejected e
  end.

(** [try { body } catch (err) { handler(err.message) }] around awaits. *)
Definition Promise_catch {A} (body : Promise A) (handler : string → Promise A)
  : Promise A :=
  match body with
  | Fulfilled a => Fulfilled a
  | Rejected e => handler e
  end.

(** What [fetch] resolves to, as far as [apiGet] reads it: [ok],
    [status] and the outcome of [json()]. *)
Module FetchResponse.
Record t (A : Type) : Type := mk {
  ok : bool;
  status : nat;
  json : Promise A
}.
Arguments mk {A} _ _ _.
Arguments ok {A} _.
Arguments status {A} _.
Arguments json {A} _.
End FetchResponse.

(** [apiGet], given what its request settles to. *)
Definition apiGet {A} (fetched : Promise (FetchResponse.t A)) : Promise A :=
  Promise_catch
    (Promise_bind fetched (λ res,
       if negb (FetchResponse.ok res)
       then Rejected ("HTTP Error: "
                      +:+ JS.toString (FetchResponse.status res))
       else Promise_bind (FetchResponse.json res)
                         (λ result, Fulfilled result)))
    (λ message, Rejected ("Could not fetch data: " +:+ message)).

(** What [apiPost] resolves to: [{success: true}] or
    [{success: false, error}]. *)
Module ApiPostResult.
Record t : Type := mk { success : bool; error : option string }.
End ApiPostResult.

(** [apiPost], given what its request settles to. With [no-cors] the
    response is opaque. The payload only shapes the URL of the request;
    it is an object of strings, numbers and null, which [JSON.stringify]
    accepts. *)
Definition apiPost (fetched : Promise unit) : Promise ApiPostResult.t :=
  Promise_catch
    (Promise_bind fetched (λ _,
       Fulfilled {| ApiPostResult.success := true;
                    ApiPostResult.error := None |}))
    (λ message,
       Fulfilled {| ApiPostResult.success := false;
                    ApiPostResult.error := Some message |}).

(** [handleSubmit] reads the field [success] of what [apiPost] resolves
    to, and nothing else. *)
Definition postResponse (r : ApiPostResult.t) : PostResponse :=
  {| post_success := ApiPostResult.success r |}.

(** [handleSubmit] and [fetchData] with the service behind them, given
    what the requests settle to. *)
Definition submit (write : Promise unit)
    (growth : Promise (FetchResponse.t (GetResponse (list TreeRecord.t))))
    (coord : Promise (FetchResponse.t (GetResponse (list CoordRecord.t))))
  : Eff unit :=
  handleSubmit (Promise_bind (apiPost write) (λ r, Fulfilled (postResponse r)))
               (apiGet growth) (apiGet coord).

Definition reload
    (growth : Promise (FetchResponse.t (GetResponse (list TreeRecord.t))))
    (coord : Promise (FetchResponse.t (GetResponse (list CoordRecord.t))))
  : Eff unit :=
  fetchData (apiGet growth) (apiGet coord).

(** ** Sample data for the closed examples *)

Definition sampleTree (code plot species : string) (st : option Status.t)
  : TreeRecord.t :=
  {| TreeRecord.id := JS.of_nat 1;
     TreeRecord.log_id := None;
     TreeRecord.tree_code := code;
     TreeRecord.tag_label := "";
     TreeRecord.plot_code := plot;
     TreeRecord.species_code := "A02";
     TreeRecord.species_group := GroupA;
     TreeRecord.species_name := species;
     TreeRecord.tree_number := JS.of_nat 1;
     TreeRecord.row_main := "1";
     TreeRecord.row_sub := "1";
     TreeRecord.dbh_cm := MNull;
     TreeRecord.height_m := MNull;
     TreeRecord.status := st;
     TreeRecord.note := "";
     TreeRecord.recorder := "";
     TreeRecord.survey_date := "";
     TreeRecord.timestamp := "" |}.

Definition sampleCoord (code : string) : CoordRecord.t :=
  {| CoordRecord.tree_code := code;
     CoordRecord.tag_label := None;
     CoordRecord.plot_code := "P1";
     CoordRecord.species_code := None;
     CoordRecord.species_group := None;
     CoordRecord.species_name := None;
     CoordRecord.tree_number := MNull;
     CoordRecord.row_main := None;
     CoordRecord.row_sub := None;
     CoordRecord.utm_x := JS.of_nat 0;
     CoordRecord.utm_y := JS.of_nat 0;
     CoordRecord.lat := JS.of_nat 0;
     CoordRecord.lng := JS.of_nat 0;
     CoordRecord.note := None |}.

(** Eight records: one alive, seven dead. *)
Definition oneAliveSevenDead : list TreeRecord.t :=
  sampleTree "P1A02001" "P1" "teak" (Some Status.alive)
  :: replicate 7 (sampleTree "P1A02002" "P1" "teak" (Some Status.dead)).

(** Forty records: 23 alive, 17 dead. *)
Definition twentyThreeAlive : list TreeRecord.t :=
  replicate 23 (sampleTree "P1A02001" "P1" "teak" (Some Status.alive))
  ++ replicate 17 (sampleTree "P1A02002" "P1" "teak" (Some Status.dead)).

(** Two records of one tree each, whose species names are numerals. *)
Definition numeralSpecies : list TreeRecord.t :=
  [ sampleTree "P1A02001" "P1" "2" (Some Status.alive);
    sampleTree "P1A02002" "P1" "1" (Some Status.alive) ].

(** Three records of two species. *)
Definition teakPineTeak : list TreeRecord.t :=
  [ sampleTree "P1A02001" "P1" "teak" (Some Status.alive);
    sampleTree "P1A03001" "P1" "pine" (Some Status.dead);
    sampleTree "P1A02002" "P1" "teak" None ].

(** Twelve records of eleven species: two of teak, one of each other. *)
Definition elevenSpecies : list TreeRecord.t :=
  (λ species, sampleTree "P1A02001" "P1" species (Some Status.alive))
  <$> [ "acacia"; "bamboo"; "cassia"; "durian"; "ebony"; "fig"; "guava";
        "teak"; "jackfruit"; "longan"; "mango"; "teak" ].

(** A form filled in for tree 14 of plot P1, and a state that holds it. *)
Definition sampleForm : FormState :=
  {| plotCode := "P1"; treeNumber := "14"; speciesCode := "A02";
     rowMain := "3"; rowSub := "2"; dbhCm := "12.5"; heightM := "";
     status := Some Status.alive; note := "leaning";
     recorder := "Somchai"; surveyDate := "2024-05-01";
     growthMode := GrowthMode.new; selectedUpdateTree := "" |}.

Definition sampleState : AppState :=
  {| records := oneAliveSevenDead; coordRecords := [sampleCoord "P1A02001"];
     activeView := ViewType.table; isLoading := false; toast := None;
     form := sampleForm;
     filters := {| searchTerm := "teak"; plotFilter := "P1";
                   statusFilter := "alive" |} |}.

(** A catalog of two plots and two species. *)
Definition sampleCatalog : Catalog :=
  {| PLOT_LIST :=
       [ PlotInfo.mk "P1" "Plot one" "North";
         PlotInfo.mk "P2" "Plot two" "" ];
     SPECIES_LIST :=
       [ SpeciesInfo.mk "A02" "teak" GroupA;
         SpeciesInfo.mk "B01" "mango" GroupB ] |}.

(** A response of the growth sheet that carries three records, and a
    request that the network fails. *)
Definition growthSheet
  : Promise (FetchResponse.t (GetResponse (list TreeRecord.t))) :=
  Fulfilled (FetchResponse.mk true 200
               (Fulfilled {| get_success := true; data := teakPineTeak |})).

Definition offline {A} : Promise A := Rejected "Failed to fetch".

(** ** The properties in the words of the specification *)

(** "treeNumber zero-padded to 3 digits": zeros are put in front of the
    decimal digits until there are [width] of them. (For a text that is
    not made of digits, until it has [width] UTF-16 units.) *)
Definition zeroPadded (width : nat) (digits : string) : string :=
  Nat.iter (width - JS.length digits) (String "0"%char) digits.

(** The sentinel as the specification writes it: the em dash, U+2014. *)
Definition emDash : string := "—".

(** The exact percentage of [n] in [t]. *)
Definition exactPct (n t : nat) : Q :=
  (100 * inject_Z (Z.of_nat n) / inject_Z (Z.of_nat t))%Q.

(** The largest relative error of one rounding to binary64, [2^(-53)],
    and the largest absolute error of a rounding below the normal range,
    [2^(-1075)]. *)
Definition eps : Q := Eval vm_compute in (1 # 2 ^ 53)%Q.
Definition eta : Q := Eval vm_compute in (1 # 2 ^ 1075)%Q.

(** *** The Standard Library's specification of IEEE 754

    [SpecFloat] gives the operations of binary64 on significands and
    exponents. The definitions below read its values as rationals, to
    compare them with [JS.div] and [JS.mul]. *)

Definition SF2Number (x : spec_float) : JS.Number :=
  match x with
  | S754_zero _ => JS.Finite 0
  | S754_infinity false => JS.PosInfinity
  | S754_infinity true => JS.NegInfinity
  | S754_nan => JS.NaN
  | S754_finite s m e =>
      JS.Finite ((if s then -1 else 1) * inject_Z (Z.pos m) * 2 ^ e)%Q
  end.

(** The binary64 value of [m * 2^e]. *)
Definition SFofZ (m e : Z) : spec_float := binary_normalize 53 1024 m e false.

Definition Number_eqb (x y : JS.Number) : bool :=
  match x, y with
  | JS.Finite a, JS.Finite b => Qeq_bool a b
  | JS.PosInfinity, JS.PosInfinity | JS.NegInfinity, JS.NegInfinity
  | JS.NaN, JS.NaN => true
  | _, _ => false
  end.

(** [(n / t) * 100] for two integers, here and in [SpecFloat]. *)
Definition percentAgrees (n t : nat) : bool :=
  Number_eqb
    (JS.mul (JS.div (JS.of_nat n) (JS.of_nat t)) (JS.of_nat 100))
    (SF2Number
       (SFmul 53 1024
          (SFdiv 53 1024 (SFofZ (Z.of_nat n) 0) (SFofZ (Z.of_nat t) 0))
          (SFofZ 100 0))).

(** [x / y] and [x * y] for [x = m1 * 2^e1] and [y = m2 * 2^e2], here
    and in [SpecFloat]. *)
Definition quotientAgrees (m1 e1 m2 e2 : Z) : bool :=
  Number_eqb
    (JS.div (SF2Number (SFofZ m1 e1)) (SF2Number (SFofZ m2 e2)))
    (SF2Number (SFdiv 53 1024 (SFofZ m1 e1) (SFofZ m2 e2))).

Definition productAgrees (m1 e1 m2 e2 : Z) : bool :=
  Number_eqb
    (JS.mul (SF2Number (SFofZ m1 e1)) (SF2Number (SFofZ m2 e2)))
    (SF2Number (SFmul 53 1024 (SFofZ m1 e1) (SFofZ m2 e2))).

(** "[t] is a substring of [s]". *)
Definition isSubstring (t s : string) : Prop :=
  ∃ pre post : string, s = pre +:+ t +:+ post.

Section FilterSpec.
Context `{JS.CaseMapping}.

(** "Case-insensitive substring match": the match is made on the
    lower-case forms. *)
Definition caseInsensitiveSubstring (t s : string) : Prop :=
  isSubstring (JS.toLowerCase t) (JS.toLowerCase s).

(** "A record matches when: searchText empty OR case-insensitive
    substring match against treeCode OR speciesName; AND plotCode filter
    empty OR equal; AND status filter empty OR equal." *)
Definition recordMatches (searchText plotFilter statusFilter : string)
    (r : TreeRecord.t) : Prop :=
  (searchText = ""
   ∨ caseInsensitiveSubstring searchText (TreeRecord.tree_code r)
   ∨ caseInsensitiveSubstring searchText (TreeRecord.species_name r))
  ∧ (plotFilter = "" ∨ TreeRecord.plot_code r = plotFilter)
  ∧ (statusFilter = ""
     ∨ Status.to_string <$> TreeRecord.status r = Some statusFilter).
End FilterSpec.

(** "Successfully re-fetched": the request resolved and the response
    carries [success: true]; then [Some] of its data. *)
Definition fetchedData {A} (p : Promise (GetResponse A)) : option A :=
  match p with
  | Fulfilled r => if get_success r then Some (data r) else None
  | Rejected _ => None
  end.

(** The form after clearing: the nine fields at their initial values. *)
Definition formCleared (f : FormState) : Prop :=
  plotCode f = "" ∧ treeNumber f = "" ∧ speciesCode f = "" ∧
  rowMain f = "" ∧ rowSub f = "" ∧ dbhCm f = "" ∧ heightM f = "" ∧
  status f = None ∧ note f = "".

(** What clearing leaves as it was: the recorder, the survey date and
    the three filter values. *)
Definition keptByClearing (s s' : AppState) : Prop :=
  recorder (form s') = recorder (form s) ∧
  surveyDate (form s') = surveyDate (form s) ∧
  searchTerm (filters s') = searchTerm (filters s) ∧
  plotFilter (filters s') = plotFilter (filters s) ∧
  statusFilter (filters s') = statusFilter (filters s).

(** The required fields of a submission are filled. *)
Definition requiredFilled (f : FormState) : Prop :=
  plotCode f ≠ "" ∧ speciesCode f ≠ "" ∧ treeNumber f ≠ "" ∧
  rowMain f ≠ "" ∧ rowSub f ≠ "" ∧ recorder f ≠ "".

(** "First-encounter order": [a] is met in the sequence [ks] before any
    [b] is. *)
Definition encounteredBefore (ks : list string) (a b : string) : Prop :=
  ∃ pre post : list string, ks = pre ++ a :: post ∧ (b ∉ pre) ∧ b ≠ a.

(** The number of occurrences of [k] in [ks]. *)
Definition occurrences (k : string) (ks : list string) : nat :=
  length (filter (λ k', k' = k) ks).

(** The order in which [Object.keys] lists two of the names counted from
    [ks]: array indices first, by their number, then the other names in
    first-encounter order. *)
Definition keyOrder (ks : list string) (a b : string) : Prop :=
  match JS.arrayIndex a, JS.arrayIndex b with
  | Some i, Some j => (i < j)%N
  | Some _, None => True
  | None, Some _ => False
  | None, None => encounteredBefore ks a b
  end.

(** "In ascending order of the key". *)
Definition ascendingBy {A} (key : A → Z) (a b : A) : Prop := (key a ≤ key b)%Z.

(** On the elements of [l] the comparator is the difference of the keys:
    it orders [l] by the key. *)
Definition ordersBy {A} (cmp : A → A → Z) (key : A → Z) (l : list A) : Prop :=
  ∀ a b, a ∈ l → b ∈ l → cmp a b = (key a - key b)%Z.

(** The count an entry carries (0 when its value is no number). *)
Definition entryCount (e : Entry) : nat :=
  match value e with
  | Count n => n
  | NotANumber => 0
  end.

(** A name that is not the name of a member of [Object.prototype]. *)
Definition ordinaryName (k : string) : Prop :=
  k ∉ JS.Object_prototype_names.

(** The notice of a submission that the validation refuses. *)
Definition requiredToast : option Toast :=
  Some {| msg := "Please fill all required fields"; type := ToastType.error |}.

(** * Properties *)

(** ** Rounding to binary64 *)

Section Rounding.
Local Open Scope Q_scope.

Lemma roundTiesToEven_error (q : Q) :
  q - (1 # 2) <= inject_Z (JS.roundTiesToEven q) <= q + (1 # 2).
Proof.
  unfold JS.roundTiesToEven.
  pose proof (Qfloor_le q) as Hlo. pose proof (Qlt_floor q) as Hhi.
  rewrite inject_Z_plus in Hhi. change (inject_Z 1) with 1 in Hhi.
  destruct (Qcompare_spec (q - inject_Z (Qfloor q)) (1 # 2)) as [He|Hl|Hg].
  - destruct (Z.even _); rewrite ?inject_Z_plus; change (inject_Z 1) with 1;
      lra.
  - lra.
  - rewrite inject_Z_plus. change (inject_Z 1) with 1. lra.
Qed.

Lemma roundTiesToEven_nonneg (q : Q) :
  0 <= q → (0 ≤ JS.roundTiesToEven q)%Z.
Proof.
  intros Hq. unfold JS.roundTiesToEven.
  assert (0 ≤ Qfloor q)%Z as Hf.
  { change 0%Z with (Qfloor 0). by apply Qfloor_resp_le. }
  destruct (_ ?= _); [destruct (Z.even _)| |]; lia.
Qed.

Lemma pow2_pos (e : Z) : 0 < 2 ^ e.
Proof. by apply Qpower_0_lt. Qed.

(** [JS.binade] is the exponent of the binade. *)
Lemma binade_spec (q : Q) :
  0 < q → 2 ^ JS.binade q <= q ∧ q < 2 ^ (JS.binade q + 1).
Proof.
  intros Hq. unfold JS.binade.
  set (e := (Z.log2 (Qnum q) - Z.log2 (Z.pos (Qden q)))%Z).
  destruct q as [n d]. cbn [Qnum Qden] in e.
  assert (0 < n)%Z as Hn by (unfold Qlt in Hq; cbn in Hq; lia).
  destruct (Z.log2_spec n Hn) as [Hn1 Hn2].
  destruct (Z.log2_spec (Z.pos d) eq_refl) as [Hd1 Hd2].
  pose proof (Z.log2_nonneg n) as Hln.
  pose proof (Z.log2_nonneg (Z.pos d)) as Hld.
  assert (∀ a b : Z, (0 ≤ a)%Z → (0 ≤ b)%Z →
            2 ^ (a + - b) == inject_Z (2 ^ a) / inject_Z (2 ^ b)) as Hpow.
  { intros a b Ha Hb. rewrite Qpower_plus by done. rewrite Qpower_opp.
    by rewrite <- !(Zpower_Qpower 2) by lia. }
  assert (∀ b : Z, (0 ≤ b)%Z → 0 < inject_Z (2 ^ b)) as Hpow0.
  { intros b Hb. change 0 with (inject_Z 0). rewrite <- Zlt_Qlt.
    apply Z.pow_pos_nonneg; lia. }
  assert (2 ^ (e - 1) <= n # d) as Hlow.
  { replace (e - 1)%Z with (Z.log2 n + - (Z.succ (Z.log2 (Z.pos d))))%Z
      by (unfold e; lia).
    rewrite Hpow by lia.
    apply Qle_shift_div_r; [apply Hpow0; lia|].
    assert (0 < 2 ^ Z.log2 n)%Z by (apply Z.pow_pos_nonneg; lia).
    set (a := (2 ^ Z.log2 n)%Z) in *.
    set (b := (2 ^ Z.succ (Z.log2 (Z.pos d)))%Z) in *.
    unfold Qle, Qmult, inject_Z. cbn. nia. }
  assert (n # d < 2 ^ (e + 1)) as Hhigh.
  { replace (e + 1)%Z with (Z.succ (Z.log2 n) + - Z.log2 (Z.pos d))%Z
      by (unfold e; lia).
    rewrite Hpow by lia.
    apply Qlt_shift_div_l; [apply Hpow0; lia|].
    assert (0 < 2 ^ Z.log2 (Z.pos d))%Z by (apply Z.pow_pos_nonneg; lia).
    set (a := (2 ^ Z.succ (Z.log2 n))%Z) in *.
    set (b := (2 ^ Z.log2 (Z.pos d))%Z) in *.
    unfold Qlt, Qmult, inject_Z. cbn. nia. }
  destruct (Qle_bool (2 ^ e) (n # d)) eqn:E.
  - split; [by apply Qle_bool_iff|done].
  - split; [done|]. replace (e - 1 + 1)%Z with e by lia.
    apply Qnot_le_lt. intros Hle. apply Qle_bool_iff in Hle. congruence.
Qed.

(** One rounding moves a positive value by at most half a unit in the
    last place: by [2^(-53)] of the value in the normal range, by
    [2^(-1075)] below it. A value up to [2^64] does not overflow. *)
Lemma binary64_pos_error (q : Q) :
  0 < q → q <= 2 ^ 64 →
  ∃ v, JS.binary64_pos q = inl v ∧ 0 <= v ∧
       q - (q * eps + eta) <= v ∧ v <= q + (q * eps + eta).
Proof.
  intros Hq Hbound. unfold JS.binary64_pos.
  set (u := Z.max (JS.binade q - 52) (-1074)).
  pose proof (pow2_pos u) as Hulp.
  set (ulp := 2 ^ u) in *.
  pose proof (roundTiesToEven_error (q / ulp)) as [Hlo Hhi].
  assert (0 <= q / ulp) as Hquot.
  { apply Qle_shift_div_l; [done|]. lra. }
  pose proof (roundTiesToEven_nonneg _ Hquot) as Hm.
  set (m := JS.roundTiesToEven (q / ulp)) in *.
  assert (0 <= inject_Z m) as Hm'.
  { change 0 with (inject_Z 0). by rewrite <- Zle_Qle. }
  assert (q / ulp * ulp == q) as Hq' by (field; lra).
  assert (ulp * (1 # 2) <= q * eps + eta) as Hu.
  { unfold ulp, u. destruct (Z.max_spec (JS.binade q - 52) (-1074))
      as [[_ ->]|[_ ->]].
    - assert (2 ^ (-1074) * (1 # 2) == eta) as -> by reflexivity.
      assert (0 <= q * eps); [|lra]. unfold eps. nra.
    - replace (JS.binade q - 52)%Z with (JS.binade q + -52)%Z by lia.
      rewrite Qpower_plus by done.
      destruct (binade_spec q Hq) as [Hb _].
      assert (2 ^ (-52) * (1 # 2) == eps) as He by reflexivity.
      assert (0 < eta) by reflexivity.
      rewrite <- Qmult_assoc, He. unfold eps in *. nra. }
  assert (q - ulp * (1 # 2) <= inject_Z m * ulp
          ∧ inject_Z m * ulp <= q + ulp * (1 # 2)) as [Hv1 Hv2].
  { set (x := q / ulp) in *. clearbody x. split; nra. }
  assert (2 ^ 64 * (1 + eps) + eta < 2 ^ 1024) as Hmax by reflexivity.
  assert (Qle_bool (2 ^ 1024) (inject_Z m * ulp) = false) as ->.
  { destruct (Qle_bool _ _) eqn:E; [|done]. apply Qle_bool_iff in E.
    unfold eps in *. nra. }
  exists (inject_Z m * ulp). split; [done|]. split; [nra|]. split; lra.
Qed.

Lemma binary64_error (q : Q) :
  0 <= q → q <= 2 ^ 64 →
  ∃ v, JS.binary64 q = JS.Finite v ∧ 0 <= v ∧
       q - (q * eps + eta) <= v ∧ v <= q + (q * eps + eta).
Proof.
  intros Hq Hbound. unfold JS.binary64.
  destruct (Qcompare_spec q 0) as [He|Hl|Hg].
  - exists 0. unfold eps, eta. repeat split; lra.
  - lra.
  - destruct (binary64_pos_error q Hg Hbound) as (v & -> & Hv).
    by exists v.
Qed.

Lemma of_nat_nonzero (t : nat) :
  (0 < t)%nat → Qeq_bool (inject_Z (Z.of_nat t)) 0 = false.
Proof.
  intros Ht. destruct (Qeq_bool _ _) eqn:E; [|done].
  apply Qeq_bool_eq in E. unfold Qeq in E; simpl in E. lia.
Qed.

Lemma of_nat_pos (t : nat) : (0 < t)%nat → 0 < inject_Z (Z.of_nat t).
Proof.
  intros Ht. change 0 with (inject_Z 0). rewrite <- Zlt_Qlt. lia.
Qed.

(** [(n / t) * 100] in binary64 is within a thousandth of the exact
    percentage, for every quotient up to [2^32]. *)
Lemma percent_error (n t : nat) :
  (0 < t)%nat → (Z.of_nat n ≤ 2 ^ 32 * Z.of_nat t)%Z →
  ∃ y, JS.mul (JS.div (JS.of_nat n) (JS.of_nat t)) (JS.of_nat 100)
       = JS.Finite y
       ∧ 0 <= y
       ∧ exactPct n t - (1 # 1000) <= y ∧ y <= exactPct n t + (1 # 1000).
Proof.
  intros Ht Hn. unfold JS.of_nat, JS.div. rewrite (of_nat_nonzero t Ht).
  pose proof (of_nat_pos t Ht) as HT.
  assert (0 <= inject_Z (Z.of_nat n)) as HN.
  { change 0 with (inject_Z 0). rewrite <- Zle_Qle. lia. }
  assert (inject_Z (Z.of_nat n) <= 4294967296 * inject_Z (Z.of_nat t)) as HN'.
  { change 4294967296 with (inject_Z (2 ^ 32)).
    rewrite <- inject_Z_mult, <- Zle_Qle. lia. }
  assert (2 ^ 64 == 18446744073709551616) as H64 by reflexivity.
  unfold exactPct.
  set (N := inject_Z (Z.of_nat n)) in *. set (T := inject_Z (Z.of_nat t)) in *.
  assert (100 * N / T == 100 * (N / T)) as Hr by (field; lra).
  assert (0 <= N / T) as Hr0 by (apply Qle_shift_div_l; lra).
  assert (N / T <= 4294967296) as Hr1 by (apply Qle_shift_div_r; lra).
  set (r := N / T) in *. clearbody r.
  destruct (binary64_error r) as (x & -> & Hx0 & Hx1 & Hx2); [lra|lra|].
  cbn [JS.mul]. change (inject_Z (Z.of_nat 100)) with 100.
  unfold eps, eta in *.
  destruct (binary64_error (x * 100)) as (y & -> & Hy0 & Hy1 & Hy2);
    [lra|lra|].
  exists y. split; [done|]. unfold eps, eta in *. repeat split; lra.
Qed.

Lemma Math_round_Finite (y : Q) :
  0 <= y →
  ∃ k : Z, JS.Math_round (JS.Finite y) = JS.Finite (inject_Z k)
           ∧ (0 ≤ k)%Z
           ∧ y - (1 # 2) <= inject_Z k ∧ inject_Z k <= y + (1 # 2).
Proof.
  intros Hy. exists (Qfloor (y + (1 # 2))). split; [done|].
  pose proof (Qfloor_le (y + (1 # 2))) as Hlo.
  pose proof (Qlt_floor (y + (1 # 2))) as Hhi.
  rewrite inject_Z_plus in Hhi. change (inject_Z 1) with 1 in Hhi.
  split; [|split; lra].
  change 0%Z with (Qfloor 0). apply Qfloor_resp_le. lra.
Qed.

(** With a positive total a percentage is a whole number that is at most
    a half and a thousandth away from the exact percentage. *)
Lemma pct_positive_total (n t : nat) :
  (0 < t)%nat → (n ≤ t)%nat →
  ∃ k : Z, pct n t = JS.Finite (inject_Z k)
           ∧ (0 ≤ k)%Z
           ∧ exactPct n t - (501 # 1000) <= inject_Z k
           ∧ inject_Z k <= exactPct n t + (501 # 1000).
Proof.
  intros Ht Hn. unfold pct.
  assert (JS.truthy (JS.of_nat t) = true) as ->.
  { unfold JS.truthy, JS.of_nat. by rewrite of_nat_nonzero. }
  destruct (percent_error n t Ht) as (y & -> & Hy0 & Hy1 & Hy2); [nia|].
  destruct (Math_round_Finite y Hy0) as (k & -> & Hk0 & Hk1 & Hk2).
  exists k. repeat split; [done|lra|lra].
Qed.

Lemma pct_zero_total (n : nat) : pct n 0 = JS.Finite 0.
Proof. reflexivity. Qed.

Lemma exactPct_sum (a d t : nat) :
  (0 < t)%nat → (a + d ≤ t)%nat →
  0 <= exactPct a t ∧ 0 <= exactPct d t ∧ exactPct a t + exactPct d t <= 100.
Proof.
  intros Ht Hle. unfold exactPct. pose proof (of_nat_pos t Ht) as HT.
  assert (0 <= inject_Z (Z.of_nat a)) as HA.
  { change 0 with (inject_Z 0). rewrite <- Zle_Qle. lia. }
  assert (0 <= inject_Z (Z.of_nat d)) as HD.
  { change 0 with (inject_Z 0). rewrite <- Zle_Qle. lia. }
  assert (inject_Z (Z.of_nat a) + inject_Z (Z.of_nat d)
          <= inject_Z (Z.of_nat t)) as HS.
  { rewrite <- inject_Z_plus, <- Zle_Qle. lia. }
  set (A := inject_Z (Z.of_nat a)) in *. set (D := inject_Z (Z.of_nat d)) in *.
  set (T := inject_Z (Z.of_nat t)) in *.
  split; [apply Qle_shift_div_l; lra|]. split; [apply Qle_shift_div_l; lra|].
  assert (100 * A / T + 100 * D / T == (100 * (A + D)) / T) as Hs
    by (field; lra).
  rewrite Hs. apply Qle_shift_div_r; lra.
Qed.

Lemma Z_lt_of_Q (k : Z) (q : Q) (m : Z) :
  inject_Z k <= q → q < inject_Z m → (k < m)%Z.
Proof. intros H1 H2. rewrite Zlt_Qlt. lra. Qed.

End Rounding.

(** The arithmetic above is that of the Standard Library's
    specification of IEEE 754: [(n / t) * 100] agrees with [SFdiv] and
    [SFmul] for every total up to 48 and every count up to the total,
    and one quotient and one product agree on values at the ends of the
    range (subnormal results, ties, overflow). *)
Lemma percent_agrees_with_SpecFloat :
  forallb (λ t, forallb (λ n, percentAgrees n t) (seq 0 (S t))) (seq 1 48)
  = true.
Proof. vm_compute. reflexivity. Qed.

Lemma rounding_agrees_with_SpecFloat :
  forallb (λ '(m1, e1, m2, e2), quotientAgrees m1 e1 m2 e2)
    [ (1, -1000, 1, 74); (1, -1000, 1, 75); (3, -1000, 1, 75);
      (5, -1000, 1, 76); (12345677, -1000, 3, 60);
      (2 ^ 53 - 1, -1022, 2, 0); (2 ^ 53 - 1, -1074, 2, 0);
      (2 ^ 53 - 1, 970, 1, -1); (2 ^ 53 - 1, 0, 2 ^ 53 - 2, 0);
      (1, 0, 3, 0); (23, 0, 40, 0); (1, 600, 3, -600) ]%Z
  = true
  ∧ forallb (λ '(m1, e1, m2, e2), productAgrees m1 e1 m2 e2)
      [ (2 ^ 53 - 1, 900, 2 ^ 53 - 1, 18); (2 ^ 53 - 1, 900, 2 ^ 53 - 1, 17);
        (2 ^ 53 - 1, 900, 2 ^ 53, 18); (3, -600, 5, -474);
        (3, -600, 5, -477); (3, -600, 5, -478); (3, -600, 5, -479);
        (2 ^ 53 - 1, 0, 2 ^ 53 - 1, 0); (2 ^ 52 + 1, 0, 3, 0);
        (5179139571476070, -53, 100, 0) ]%Z
    = true.
Proof. vm_compute. split; reflexivity. Qed.

(** ** Percentages *)

Lemma status_counts_disjoint (l : list TreeRecord.t) :
  length (List.filter (hasStatus Status.alive) l)
  + length (List.filter (hasStatus Status.dead) l) ≤ length l.
Proof.
  induction l as [|r l IH]; [done|].
  cbn [List.filter].
  destruct (hasStatus Status.alive r) eqn:Ea, (hasStatus Status.dead r) eqn:Ed;
    cbn [length]; try lia.
  unfold hasStatus in Ea, Ed. by destruct (TreeRecord.status r) as [[]|].
Qed.

Lemma pct_bounds (a d t : nat) :
  a + d ≤ t →
  ∃ p q : Z,
    pct a t = JS.Finite (inject_Z p) ∧ pct d t = JS.Finite (inject_Z q) ∧
    (0 ≤ p ≤ 100)%Z ∧ (0 ≤ q ≤ 100)%Z ∧ (p + q ≤ 101)%Z.
Proof.
  intros Hle. destruct t as [|t].
  { exists 0%Z, 0%Z. rewrite !pct_zero_total. repeat split; lia. }
  destruct (pct_positive_total a (S t)) as (p & Hp & Hp0 & _ & Hp2); [lia..|].
  destruct (pct_positive_total d (S t)) as (q & Hq & Hq0 & _ & Hq2); [lia..|].
  destruct (exactPct_sum a d (S t)) as (Ha & Hd & Hsum); [lia..|].
  exists p, q. split; [done|]. split; [done|].
  assert (p < 101)%Z
    by (apply (Z_lt_of_Q p _ 101 Hp2); change (inject_Z 101) with 101%Q; lra).
  assert (q < 101)%Z
    by (apply (Z_lt_of_Q q _ 101 Hq2); change (inject_Z 101) with 101%Q; lra).
  assert (p + q < 102)%Z.
  { apply (Z_lt_of_Q (p + q)
             (exactPct a (S t) + exactPct d (S t) + (1002 # 1000))%Q 102).
    - rewrite inject_Z_plus. lra.
    - change (inject_Z 102) with 102%Q. lra. }
  lia.
Qed.

(** C2, as amended. The alive and the dead records are disjoint parts of
    the sequence, so their counts add up to at most the total. The two
    percentages are whole numbers from 0 to 100, both 0 when there is no
    record, and their sum is at most 101: each is rounded on its own. *)
Theorem stats_counts_and_percentages (records : list TreeRecord.t) :
  alive (stats records) + dead (stats records) ≤ total (stats records) ∧
  ∃ p q : Z,
    alivePct (stats records) = JS.Finite (inject_Z p) ∧
    deadPct (stats records) = JS.Finite (inject_Z q) ∧
    (0 ≤ p ≤ 100)%Z ∧ (0 ≤ q ≤ 100)%Z ∧ (p + q ≤ 101)%Z ∧
    (total (stats records) = 0 → p = 0%Z ∧ q = 0%Z).
Proof.
  split; [apply status_counts_disjoint|].
  destruct (pct_bounds _ _ _ (status_counts_disjoint records))
    as (p & q & Hp & Hq & Hpb & Hqb & Hsum).
  exists p, q. repeat (split; [done|]).
  cbn [stats total alivePct deadPct] in *. intros Ht. rewrite Ht in Hp, Hq.
  rewrite pct_zero_total in Hp, Hq.
  injection Hp as Hp. injection Hq as Hq. by subst.
Qed.

(** The theorem with no record, where both percentages are 0, and on 23
    alive and 17 dead records of 40, where they are 57 and 43: the
    quotient 23/40 times 100 is just below 57.5 in binary64. *)
Lemma stats_percentages_examples :
  (alivePct (stats []) = JS.Finite 0 ∧ deadPct (stats []) = JS.Finite 0)
  ∧ ∃ p q : Z,
      alivePct (stats twentyThreeAlive) = JS.Finite (inject_Z p) ∧
      deadPct (stats twentyThreeAlive) = JS.Finite (inject_Z q) ∧
      p = 57%Z ∧ q = 43%Z ∧ (p + q ≤ 101)%Z.
Proof.
  split.
  - destruct (stats_counts_and_percentages [])
      as (_ & p & q & -> & -> & _ & _ & _ & Hzero).
    by destruct (Hzero eq_refl) as [-> ->].
  - destruct (stats_counts_and_percentages twentyThreeAlive)
      as (_ & p & q & Hp & Hq & _ & _ & Hsum & _).
    exists p, q. split; [exact Hp|]. split; [exact Hq|].
    split; [|split; [|exact Hsum]].
    + vm_compute in Hp. by injection Hp as <-.
    + vm_compute in Hq. by injection Hq as <-.
Defined.

(** C2 as stated fails on one alive and seven dead records: the
    quotients times 100 are 12.5 and 87.5, which binary64 holds exactly,
    and they round to 13 and 88, which add up to 101. *)
Lemma percentages_sum_to_101 :
  alive (stats oneAliveSevenDead) + dead (stats oneAliveSevenDead)
    = total (stats oneAliveSevenDead) ∧
  alivePct (stats oneAliveSevenDead) = JS.Finite (inject_Z 13) ∧
  deadPct (stats oneAliveSevenDead) = JS.Finite (inject_Z 88) ∧
  (100 < 13 + 88)%Z.
Proof. split; [|split; [|split]]; vm_compute; reflexivity. Qed.

(** ** Coordinate coverage *)

(** X1. With at least one growth record, and fewer coordinate records
    than an array can hold, the coverage is a whole number that is at
    most a half and a thousandth away from the exact percentage: it is
    the exact percentage when that is whole, and one of the two whole
    numbers next to it otherwise. *)
Lemma coverage_positive_total (records : list TreeRecord.t)
    (coordRecords : list CoordRecord.t) :
  0 < length records →
  (Z.of_nat (length coordRecords) < 2 ^ 32)%Z →
  ∃ k : Z,
    coordinateCoveragePct records coordRecords = JS.Finite (inject_Z k)
    ∧ (0 ≤ k)%Z
    ∧ (exactPct (length coordRecords) (length records) - (501 # 1000)
       <= inject_Z k)%Q
    ∧ (inject_Z k
       <= exactPct (length coordRecords) (length records) + (501 # 1000))%Q.
Proof.
  intros Ht Hc. unfold coordinateCoveragePct. cbn [stats total].
  destruct (percent_error (length coordRecords) (length records) Ht)
    as (y & -> & Hy0 & Hy1 & Hy2); [nia|].
  assert (JS.Math_round (JS.or (JS.Finite y) (JS.of_nat 0))
          = JS.Math_round (JS.Finite y)) as ->.
  { unfold JS.or, JS.truthy. destruct (Qeq_bool y 0) eqn:E; [|done].
    apply Qeq_bool_eq in E. cbn [negb JS.of_nat JS.Math_round]. do 2 f_equal.
    apply Qfloor_comp. by rewrite E. }
  destruct (Math_round_Finite y Hy0) as (k & -> & Hk0 & Hk1 & Hk2).
  exists k. repeat split; [done|lra|lra].
Qed.

(** C1 on the code: with no growth record the coverage is 0 only when
    there is no coordinate record either. With one or more, the quotient
    is Infinity, which [|| 0] lets through and [Math.round] returns. *)
Theorem coverage_without_growth_records (coordRecords : list CoordRecord.t) :
  coordinateCoveragePct [] coordRecords
  = match coordRecords with
    | [] => JS.Finite 0
    | _ :: _ => JS.PosInfinity
    end.
Proof. destruct coordRecords; reflexivity. Qed.

(** With 40 growth records and 23 coordinate records the exact
    percentage is 57.5 and the coverage is 57; with 8 and 1 it is 12.5
    and 13. *)
Lemma coverage_examples :
  (∃ k : Z,
     coordinateCoveragePct twentyThreeAlive
       (replicate 23 (sampleCoord "P1A02001"))
     = JS.Finite (inject_Z k) ∧ k = 57%Z)
  ∧ (∃ k : Z,
       coordinateCoveragePct oneAliveSevenDead [sampleCoord "P1A02001"]
       = JS.Finite (inject_Z k) ∧ k = 13%Z).
Proof.
  split.
  - destruct (coverage_positive_total twentyThreeAlive
                (replicate 23 (sampleCoord "P1A02001")))
      as (k & Hk & _); [cbn; lia|reflexivity|].
    exists k. split; [exact Hk|]. vm_compute in Hk. by injection Hk as <-.
  - destruct (coverage_positive_total oneAliveSevenDead
                [sampleCoord "P1A02001"])
      as (k & Hk & _); [cbn; lia|reflexivity|].
    exists k. split; [exact Hk|]. vm_compute in Hk. by injection Hk as <-.
Defined.

(** ** The tree code *)

Lemma nonempty_true (s : string) : JS.nonempty s = true ↔ s ≠ "".
Proof. destruct s; cbn; split; congruence. Qed.

Lemma nonempty_false (s : string) : JS.nonempty s = false ↔ s = "".
Proof. destruct s; cbn; split; congruence. Qed.

Lemma append_String (c : ascii) (s1 s2 : string) :
  String c s1 +:+ s2 = String c (s1 +:+ s2).
Proof. reflexivity. Qed.

Lemma append_empty_l (s : string) : "" +:+ s = s.
Proof. reflexivity. Qed.

Lemma iter_String_app (c : ascii) (k : nat) (s : string) :
  Nat.iter k (String c) "" +:+ s = Nat.iter k (String c) s.
Proof.
  induction k as [|k IH]; [done|].
  rewrite !Nat.iter_succ, append_String. by rewrite IH.
Qed.

Lemma substring0_repeat_zero (k : nat) :
  JS.substring0 k (JS.repeat "0" k) = Nat.iter k (String "0"%char) "".
Proof.
  induction k as [|k IH]; [done|].
  rewrite Nat.iter_succ. cbn [JS.repeat].
  rewrite append_String, append_empty_l. cbn [JS.substring0].
  change (JS.units "0") with 1. cbn [Nat.leb].
  by rewrite Nat.sub_succ, Nat.sub_0_r, IH.
Qed.

(** Padding with ["0"] is what the spec calls zero-padding. *)
Lemma padStart_zero (s : string) (width : nat) :
  JS.padStart s width "0" = zeroPadded width s.
Proof.
  unfold JS.padStart, zeroPadded.
  destruct (Nat.leb_spec width (JS.length s)) as [Hle|Hlt].
  - by replace (width - JS.length s) with 0 by lia.
  - cbn [JS.nonempty]. by rewrite substring0_repeat_zero, iter_String_app.
Qed.

Lemma string_of_uint_nonempty (d : Decimal.uint) :
  NilZero.string_of_uint d ≠ "".
Proof. by destruct d. Qed.

Lemma toString_nonempty (n : nat) : JS.toString n ≠ "".
Proof. apply string_of_uint_nonempty. Qed.

Lemma treeCodePreview_complete (plotCode speciesCode treeNumber : string) :
  plotCode ≠ "" → speciesCode ≠ "" → treeNumber ≠ "" →
  treeCodePreview plotCode speciesCode treeNumber
  = plotCode +:+ speciesCode +:+ zeroPadded 3 treeNumber.
Proof.
  intros Hp Hs Hn. unfold treeCodePreview.
  apply nonempty_true in Hp, Hs, Hn. rewrite Hp, Hs, Hn. cbn [negb orb].
  by rewrite padStart_zero.
Qed.

(** C4. For a non-empty plot code, a non-empty species code and a tree
    number of at least 1, the tree code is the plot code, the species
    code and the decimal digits of the number zero-padded to 3 digits,
    one after the other. *)
Theorem treeCodePreview_concatenates (plotCode speciesCode : string)
    (treeNumber : nat) :
  plotCode ≠ "" → speciesCode ≠ "" → 1 ≤ treeNumber →
  treeCodePreview plotCode speciesCode (JS.toString treeNumber)
  = plotCode +:+ speciesCode +:+ zeroPadded 3 (JS.toString treeNumber).
Proof.
  intros Hp Hs _. apply treeCodePreview_complete; [done..|].
  apply toString_nonempty.
Qed.

(** The two examples of the spec, from the theorem. *)
Lemma treeCodePreview_examples :
  treeCodePreview "PLOT1" "A02" "14" = "PLOT1A02014" ∧
  treeCodePreview "PLOT1" "A02" "7" = "PLOT1A02007".
Proof.
  split.
  - exact (treeCodePreview_concatenates "PLOT1" "A02" 14
             ltac:(discriminate) ltac:(discriminate) ltac:(lia)).
  - exact (treeCodePreview_concatenates "PLOT1" "A02" 7
             ltac:(discriminate) ltac:(discriminate) ltac:(lia)).
Defined.

(** C9 on the code. When the plot code, the species code or the tree
    number is empty, the preview is the placeholder, and the function is
    total, so no input makes it throw. The placeholder of the source file
    is not the em dash: it is three characters, the ones that the bytes of
    an em dash give when they are read as Mac OS Roman. *)
Theorem treeCodePreview_incomplete (plotCode speciesCode treeNumber : string) :
  plotCode = "" ∨ speciesCode = "" ∨ treeNumber = "" →
  treeCodePreview plotCode speciesCode treeNumber = placeholder
  ∧ treeCodePreview plotCode speciesCode treeNumber ≠ emDash
  ∧ JS.length (treeCodePreview plotCode speciesCode treeNumber) = 3.
Proof.
  intros Hempty.
  assert (treeCodePreview plotCode speciesCode treeNumber = placeholder)
    as ->; [|done].
  unfold treeCodePreview.
  destruct Hempty as [-> | [-> | ->]]; cbn [JS.nonempty negb orb];
    [done| |]; by rewrite ?orb_true_r.
Qed.

Lemma treeCodePreview_incomplete_examples :
  (treeCodePreview "" "A02" "14" = "‚Äî"
   ∧ treeCodePreview "" "A02" "14" ≠ "—"
   ∧ JS.length (treeCodePreview "" "A02" "14") = 3)
  ∧ treeCodePreview "PLOT1" "" "14" = "‚Äî"
  ∧ treeCodePreview "PLOT1" "A02" "" = "‚Äî".
Proof.
  split; [|split].
  - apply (treeCodePreview_incomplete "" "A02" "14"). by left.
  - apply (treeCodePreview_incomplete "PLOT1" "" "14"). right. by left.
  - apply (treeCodePreview_incomplete "PLOT1" "A02" ""). right. by right.
Defined.

Lemma append_inj_length (a b x y : string) :
  String.length a = String.length b → a +:+ x = b +:+ y → a = b ∧ x = y.
Proof.
  revert b. induction a as [|c a IH]; intros [|c' b] Hlen Heq;
    try discriminate Hlen.
  - done.
  - rewrite !append_String in Heq. injection Heq as -> Heq.
    injection Hlen as Hlen. by destruct (IH b Hlen Heq) as [-> ->].
Qed.

Lemma to_uint_nonnil (n : nat) : Nat.to_uint n ≠ Decimal.Nil.
Proof.
  rewrite <- (DecimalNat.Unsigned.of_to n) at 1.
  rewrite DecimalNat.Unsigned.to_of. apply DecimalFacts.unorm_nonnil.
Qed.

Lemma toString_digits (n : nat) :
  JS.toString n = NilEmpty.string_of_uint (Nat.to_uint n).
Proof.
  unfold JS.toString. pose proof (to_uint_nonnil n) as Hn.
  by destruct (Nat.to_uint n).
Qed.

Lemma zeros_string_of_uint (k : nat) (u : Decimal.uint) :
  Nat.iter k (String "0"%char) (NilEmpty.string_of_uint u)
  = NilEmpty.string_of_uint (Nat.iter k Decimal.D0 u).
Proof.
  induction k as [|k IH]; [done|]. rewrite !Nat.iter_succ, IH. done.
Qed.

Lemma of_uint_leading_zeros (k : nat) (u : Decimal.uint) :
  Nat.of_uint (Nat.iter k Decimal.D0 u) = Nat.of_uint u.
Proof.
  induction k as [|k IH]; [done|]. rewrite Nat.iter_succ.
  rewrite <- DecimalNat.Unsigned.of_uint_norm, DecimalFacts.unorm_D0.
  by rewrite DecimalNat.Unsigned.of_uint_norm.
Qed.

(** Zero-padded numerals of different numbers differ, whatever the
    width and whether or not the digits fill it. *)
Lemma zeroPadded_toString_inj (w1 w2 n1 n2 : nat) :
  zeroPadded w1 (JS.toString n1) = zeroPadded w2 (JS.toString n2) → n1 = n2.
Proof.
  unfold zeroPadded. rewrite !toString_digits, !zeros_string_of_uint.
  intros Heq. apply (f_equal NilEmpty.uint_of_string) in Heq.
  rewrite !NilEmpty.usu in Heq. injection Heq as Heq.
  apply (f_equal Nat.of_uint) in Heq.
  by rewrite !of_uint_leading_zeros, !DecimalNat.Unsigned.of_to in Heq.
Qed.

(** C3, as amended. Over triples whose plot codes have one length and
    whose species codes have one length, equal tree codes come from equal
    triples. (That equal triples give equal codes holds of any function.) *)
Theorem treeCodePreview_injective (plotCode1 speciesCode1 : string)
    (treeNumber1 : nat) (plotCode2 speciesCode2 : string) (treeNumber2 : nat) :
  plotCode1 ≠ "" → speciesCode1 ≠ "" → 1 ≤ treeNumber1 →
  plotCode2 ≠ "" → speciesCode2 ≠ "" → 1 ≤ treeNumber2 →
  String.length plotCode1 = String.length plotCode2 →
  String.length speciesCode1 = String.length speciesCode2 →
  treeCodePreview plotCode1 speciesCode1 (JS.toString treeNumber1)
  = treeCodePreview plotCode2 speciesCode2 (JS.toString treeNumber2) →
  (plotCode1, speciesCode1, treeNumber1)
  = (plotCode2, speciesCode2, treeNumber2).
Proof.
  intros Hp1 Hs1 Hn1 Hp2 Hs2 Hn2 Hlp Hls.
  rewrite !treeCodePreview_complete by (done || apply toString_nonempty).
  intros Heq.
  apply append_inj_length in Heq as [-> Heq]; [|done].
  apply append_inj_length in Heq as [-> Heq]; [|done].
  by apply zeroPadded_toString_inj in Heq as ->.
Qed.

Lemma treeCodePreview_injective_example :
  ("P1", "A02", 14) = ("P1", "A02", 14).
Proof.
  apply (treeCodePreview_injective "P1" "A02" 14 "P1" "A02" 14);
    first [discriminate | lia | reflexivity].
Defined.

(** C3 as stated fails when the codes have no fixed width: the triples
    (P, A1, 1) and (P, A, 1001) are valid and distinct, and both have the
    tree code PA1001. *)
Lemma treeCodePreview_collision :
  treeCodePreview "P" "A1" (JS.toString 1)
    = treeCodePreview "P" "A" (JS.toString 1001) ∧
  ("P", "A1", 1) ≠ ("P", "A", 1001).
Proof. split; [reflexivity | discriminate]. Qed.

(** ** The filter *)

Lemma prefix_spec (t s : string) :
  String.prefix t s = true ↔ ∃ post, s = t +:+ post.
Proof.
  revert t. induction s as [|c s IH]; intros [|d t]; cbn [String.prefix].
  - split; [by exists ""|done].
  - split; [done|]. by intros [post Hpost].
  - split; [|done]. intros _. by exists (String c s).
  - destruct (ascii_dec d c) as [->|Hne].
    + rewrite IH. split; intros [post Hpost]; exists post.
      * by rewrite append_String, <- Hpost.
      * rewrite append_String in Hpost. by injection Hpost.
    + split; [done|]. intros [post Hpost].
      rewrite append_String in Hpost. by injection Hpost as -> _.
Qed.

(** [includes] decides the substring relation. *)
Lemma includes_spec (s t : string) :
  JS.includes s t = true ↔ isSubstring t s.
Proof.
  unfold isSubstring. induction s as [|c s IH]; cbn [JS.includes].
  - rewrite orb_false_r, prefix_spec. split.
    + intros [post Hpost]. by exists "", post.
    + intros ([|c pre] & post & Hpost); [by exists post|done].
  - rewrite orb_true_iff, prefix_spec, IH. split.
    + intros [[post Hpost]|(pre & post & Hpost)].
      * by exists "", post.
      * exists (String c pre), post. by rewrite append_String, <- Hpost.
    + intros ([|d pre] & post & Hpost).
      * left. by exists post.
      * right. exists pre, post. rewrite append_String in Hpost.
        by injection Hpost.
Qed.

Section FilterFacts.
Context `{JS.CaseMapping}.

(** The predicate of the code is the predicate of the spec. *)
Lemma matchesFilters_spec (searchTerm plotFilter statusFilter : string)
    (r : TreeRecord.t) :
  matchesFilters searchTerm plotFilter statusFilter r = true
  ↔ recordMatches searchTerm plotFilter statusFilter r.
Proof.
  unfold matchesFilters, recordMatches, caseInsensitiveSubstring.
  rewrite !andb_true_iff, !orb_true_iff, !negb_true_iff, !nonempty_false,
    !includes_spec, String.eqb_eq.
  assert (match TreeRecord.status r with
          | Some st => String.eqb (Status.to_string st) statusFilter
          | None => false
          end = true
          ↔ Status.to_string <$> TreeRecord.status r = Some statusFilter)
    as ->.
  { destruct (TreeRecord.status r) as [st|]; cbn; [|done].
    rewrite String.eqb_eq. split; congruence. }
  tauto.
Qed.

#[export] Instance recordMatches_dec (searchText plotFilter statusFilter : string)
    (r : TreeRecord.t) :
  Decision (recordMatches searchText plotFilter statusFilter r).
Proof.
  refine (cast_if
    (decide (matchesFilters searchText plotFilter statusFilter r = true)));
    by rewrite <- matchesFilters_spec.
Defined.

End FilterFacts.

(** On ASCII text, with the ASCII case mapping: the search is blind to
    case, the three conditions are joined, the order is kept. *)
Lemma filteredRecords_examples :
  filteredRecords (H := JS.ascii_toLowerCase) teakPineTeak "TEA" "P1" ""
  = [ sampleTree "P1A02001" "P1" "teak" (Some Status.alive);
      sampleTree "P1A02002" "P1" "teak" None ]
  ∧ filteredRecords (H := JS.ascii_toLowerCase) teakPineTeak "a03" "" "dead"
    = [ sampleTree "P1A03001" "P1" "pine" (Some Status.dead) ]
  ∧ filteredRecords (H := JS.ascii_toLowerCase) teakPineTeak "" "P2" "" = [].
Proof. repeat split. Qed.

(** ** The join of the map layer *)

Lemma find_none {A} (p : A → bool) (l : list A) :
  Forall (λ x, p x = false) l → JS.find p l = None.
Proof. induction 1 as [|x l Hx _ IH]; cbn; [done|]. by rewrite Hx. Qed.

Lemma find_first {A} (p : A → bool) (pre : list A) (x : A) (post : list A) :
  Forall (λ y, p y = false) pre → p x = true →
  JS.find p (pre ++ x :: post) = Some x.
Proof.
  intros Hpre Hx. induction Hpre as [|y pre Hy _ IH]; cbn.
  - by rewrite Hx.
  - by rewrite Hy.
Qed.

Lemma tree_code_differs (r : CoordRecord.t) (l : list TreeRecord.t) :
  Forall (λ g, TreeRecord.tree_code g ≠ CoordRecord.tree_code r) l →
  Forall (λ g, String.eqb (TreeRecord.tree_code g) (CoordRecord.tree_code r)
               = false) l.
Proof.
  intros Hl. eapply Forall_impl; [exact Hl|].
  intros g. by rewrite String.eqb_neq.
Qed.

(** C7. A coordinate record whose tree code is the tree code of no
    growth record resolves to no growth record, and its marker is neither
    alive nor dead: it has the neutral colour, class and text. When growth
    records match, the first of them in the sequence is the one found. *)
Theorem resolveGrowthFor_spec (r : CoordRecord.t) (records : list TreeRecord.t) :
  (Forall (λ g, TreeRecord.tree_code g ≠ CoordRecord.tree_code r) records →
   resolveGrowthFor r records = None ∧
   growthRec (marker r records) = None ∧
   isAlive (marker r records) = false ∧
   isDead (marker r records) = false ∧
   color (marker r records) = "#9ca3af" ∧
   statusClass (marker r records) = "text-gray-400" ∧
   statusText (marker r records) = placeholder)
  ∧ (∀ pre g post,
       records = pre ++ g :: post →
       Forall (λ g', TreeRecord.tree_code g' ≠ CoordRecord.tree_code r) pre →
       TreeRecord.tree_code g = CoordRecord.tree_code r →
       resolveGrowthFor r records = Some g).
Proof.
  split.
  - intros Hnone. apply tree_code_differs in Hnone.
    assert (resolveGrowthFor r records = None) as Hfind
      by by apply find_none.
    unfold marker. by rewrite Hfind.
  - intros pre g post -> Hpre Hg. apply find_first.
    + by apply tree_code_differs.
    + by apply String.eqb_eq.
Qed.

(** The theorem on a coordinate record without a growth record and on
    one whose first match is the second record of the sequence. *)
Lemma resolveGrowthFor_examples :
  resolveGrowthFor (sampleCoord "P9A02001") oneAliveSevenDead = None ∧
  color (marker (sampleCoord "P9A02001") oneAliveSevenDead) = "#9ca3af" ∧
  resolveGrowthFor (sampleCoord "P1A02002") oneAliveSevenDead
  = Some (sampleTree "P1A02002" "P1" "teak" (Some Status.dead)).
Proof.
  pose proof (resolveGrowthFor_spec (sampleCoord "P9A02001") oneAliveSevenDead)
    as [Hnone _].
  pose proof (resolveGrowthFor_spec (sampleCoord "P1A02002") oneAliveSevenDead)
    as [_ Hfirst].
  split; [|split].
  - apply Hnone. repeat constructor; discriminate.
  - apply Hnone. repeat constructor; discriminate.
  - apply (Hfirst [sampleTree "P1A02001" "P1" "teak" (Some Status.alive)]
             _ (replicate 6 (sampleTree "P1A02002" "P1" "teak"
                               (Some Status.dead)))).
    + reflexivity.
    + repeat constructor; discriminate.
    + reflexivity.
Defined.

(** ** The reload *)

(** C8. After a reload each collection is the data of its own request
    when that was re-fetched with success, and is what it was before
    otherwise: a response with [success: false] and a request that fails
    leave the collection alone, and the failure of one request does
    nothing to the other collection. The coordinates are requested only
    when the request for the growth records did not fail. The form and
    the filters are never touched, and the reload itself never throws. *)
Theorem fetchData_keeps_unfetched
    (growth : Promise (GetResponse (list TreeRecord.t)))
    (coord : Promise (GetResponse (list CoordRecord.t))) (s : AppState) :
  let s' := (fetchData growth coord s).1 in
  records s' = default (records s) (fetchedData growth) ∧
  coordRecords s'
    = default (coordRecords s)
        (match growth with
         | Fulfilled _ => fetchedData coord
         | Rejected _ => None
         end) ∧
  form s' = form s ∧ filters s' = filters s ∧
  (fetchData growth coord s).2 = Return ().
Proof.
  destruct growth as [[[] gdata]|gerr], coord as [[[] cdata]|cerr];
    repeat split.
Qed.

(** ** Clearing the form *)

Lemma clearForm_spec (s : AppState) :
  formCleared (form (clearForm s).1) ∧ keptByClearing s (clearForm s).1.
Proof. repeat split. Qed.

(** C10. Clearing the form puts the nine entry fields back to their
    initial values and keeps the recorder, the survey date and the three
    filter values; so does a submission that is accepted, whatever the
    reload that follows it brings. *)
Theorem clearForm_after_submit
    (growth : Promise (GetResponse (list TreeRecord.t)))
    (coord : Promise (GetResponse (list CoordRecord.t))) (s : AppState) :
  requiredFilled (form s) →
  let cleared := (clearForm s).1 in
  let submitted :=
    (handleSubmit (Fulfilled {| post_success := true |}) growth coord s).1 in
  formCleared (form cleared) ∧ keptByClearing s cleared ∧
  formCleared (form submitted) ∧ keptByClearing s submitted.
Proof.
  intros (Hp & Hs & Hn & Hm & Hb & Hr). cbn zeta.
  destruct (clearForm_spec s) as [Hc Hk].
  split; [exact Hc|]. split; [exact Hk|]. clear Hc Hk.
  apply nonempty_true in Hp, Hs, Hn, Hm, Hb, Hr.
  unfold handleSubmit, bind, getState.
  rewrite Hp, Hs, Hn, Hm, Hb, Hr. cbn [negb orb].
  destruct growth as [[[] gdata]|gerr], coord as [[[] cdata]|cerr];
    repeat split.
Qed.

Lemma clearForm_after_submit_example :
  let submitted :=
    (handleSubmit (Fulfilled {| post_success := true |})
       (Rejected "offline") (Rejected "offline") sampleState).1 in
  formCleared (form (clearForm sampleState).1) ∧
  keptByClearing sampleState (clearForm sampleState).1 ∧
  formCleared (form submitted) ∧ keptByClearing sampleState submitted.
Proof.
  apply (clearForm_after_submit (Rejected "offline") (Rejected "offline")
           sampleState).
  repeat split; discriminate.
Defined.

(** ** Sorting *)

Lemma List_filter_decide {A} (f : A → bool) (l : list A) :
  List.filter f l = filter (λ x, f x = true) l.
Proof.
  induction l as [|x l IH]; [done|]. cbn [List.filter].
  rewrite filter_cons, IH. by destruct (f x); case_decide.
Qed.

Lemma sublist_filter_mono {A} (P : A → Prop) `{!∀ x, Decision (P x)}
    (l1 l2 : list A) :
  l1 `sublist_of` l2 → filter P l1 `sublist_of` filter P l2.
Proof.
  induction 1 as [|x l1 l2 _ IH|x l1 l2 _ IH]; [done|..];
    rewrite ?filter_cons; case_decide;
    auto using sublist_skip, sublist_cons.
Qed.

(** Two elements at positions [i < j] form a sublist. *)
Lemma lookup_pair_sublist {A} (l : list A) (i j : nat) (a b : A) :
  i < j → l !! i = Some a → l !! j = Some b → [a; b] `sublist_of` l.
Proof.
  intros Hij Ha Hb. rewrite <- (take_drop_middle l i a Ha).
  apply sublist_inserts_l, sublist_skip, singleton_sublist_l.
  apply list_elem_of_lookup. exists (j - S i).
  rewrite lookup_drop. by replace (S i + (j - S i)) with j by lia.
Qed.

Lemma StronglySorted_pair {A} (R : A → A → Prop) (l : list A) (a b : A) :
  StronglySorted R l → [a; b] `sublist_of` l → R a b.
Proof.
  intros Hsorted (k1 & k2 & -> & Hb%singleton_sublist_l)%sublist_cons_l.
  apply StronglySorted_app_1_r, StronglySorted_cons in Hsorted as [Hall _].
  by eapply Forall_forall in Hall.
Qed.

Section SortFacts.
Context {A : Type} (cmp : A → A → Z) (key : A → Z).

Local Abbreviation ascending := (ascendingBy key).

Lemma sort_insert_perm (x : A) (l : list A) :
  JS.sort_insert cmp x l ≡ₚ x :: l.
Proof.
  induction l as [|y l IH]; [done|]. cbn [JS.sort_insert].
  destruct (0 <? cmp x y)%Z; [|done]. by rewrite IH, Permutation_swap.
Qed.

(** The result of [sort] is a permutation of its input. *)
Lemma sort_perm (l : list A) : JS.sort cmp l ≡ₚ l.
Proof.
  induction l as [|x l IH]; [done|]. cbn. by rewrite sort_insert_perm, IH.
Qed.

Lemma sort_insert_sorted (x : A) (l : list A) :
  (∀ y, y ∈ l → cmp x y = (key x - key y)%Z) →
  StronglySorted ascending l →
  StronglySorted ascending (JS.sort_insert cmp x l).
Proof.
  induction l as [|y l IH]; intros Hcmp Hl; cbn [JS.sort_insert].
  - by repeat constructor.
  - apply StronglySorted_cons in Hl as [Hy Hl].
    pose proof (Hcmp y ltac:(by left)) as Hxy.
    destruct (Z.ltb_spec 0 (cmp x y)) as [Hlt|Hge]; rewrite Hxy in *.
    + apply StronglySorted_cons. split.
      * rewrite sort_insert_perm. constructor; [unfold ascendingBy; lia|done].
      * apply IH; [|done]. intros z Hz. apply Hcmp. by right.
    + apply StronglySorted_cons. split.
      * constructor; [unfold ascendingBy; lia|].
        eapply Forall_impl; [exact Hy|]. unfold ascendingBy. intros; lia.
      * by apply StronglySorted_cons.
Qed.

Lemma sort_insert_filter (z : Z) (x : A) (l : list A) :
  (∀ y, y ∈ l → cmp x y = (key x - key y)%Z) →
  filter (λ a, key a = z) (JS.sort_insert cmp x l)
  = filter (λ a, key a = z) (x :: l).
Proof.
  induction l as [|y l IH]; intros Hcmp; [done|]. cbn [JS.sort_insert].
  pose proof (Hcmp y ltac:(by left)) as Hxy.
  destruct (Z.ltb_spec 0 (cmp x y)) as [Hlt|Hge]; [|done].
  rewrite Hxy in Hlt.
  rewrite (filter_cons _ y), IH by (intros; apply Hcmp; by right).
  rewrite !filter_cons. repeat case_decide; done || lia.
Qed.

Lemma ordersBy_cons (x : A) (l : list A) :
  ordersBy cmp key (x :: l) →
  (∀ y, y ∈ JS.sort cmp l → cmp x y = (key x - key y)%Z)
  ∧ ordersBy cmp key l.
Proof.
  intros Hcmp. split.
  - intros y Hy. rewrite sort_perm in Hy. apply Hcmp; [by left|by right].
  - intros a b Ha Hb. apply Hcmp; by right.
Qed.

(** For a comparator that orders the input by a key, the result is in
    ascending order of the key, *)
Lemma sort_sorted (l : list A) :
  ordersBy cmp key l → StronglySorted ascending (JS.sort cmp l).
Proof.
  induction l as [|x l IH]; [constructor|].
  intros [Hx Hl]%ordersBy_cons. apply sort_insert_sorted; auto.
Qed.

(** and the sort is stable: the elements of one key keep their order. *)
Lemma sort_stable (z : Z) (l : list A) :
  ordersBy cmp key l →
  filter (λ a, key a = z) (JS.sort cmp l) = filter (λ a, key a = z) l.
Proof.
  induction l as [|x l IH]; [done|]. intros [Hx Hl]%ordersBy_cons.
  cbn [JS.sort foldr]. fold (JS.sort cmp l).
  by rewrite sort_insert_filter, !filter_cons, IH.
Qed.

(** Of two elements in that order in the result, the first has the
    smaller or the same key, and with the same key it came first in the
    input already. *)
Lemma sort_pair (l : list A) (a b : A) :
  ordersBy cmp key l →
  [a; b] `sublist_of` JS.sort cmp l →
  (key a ≤ key b)%Z ∧ (key a = key b → [a; b] `sublist_of` l).
Proof.
  intros Hcmp Hab. split.
  - by apply (StronglySorted_pair ascending _ a b (sort_sorted l Hcmp)).
  - intros Heq.
    apply (sublist_filter_mono (λ e, key e = key a)) in Hab.
    rewrite sort_stable, !filter_cons_True, filter_nil in Hab by done.
    etrans; [exact Hab|]. apply sublist_filter.
Qed.
End SortFacts.

(** ** Counting in an object *)

Lemma set_own_keys {V} (o : JS.Obj V) (k : string) (v : V) :
  (JS.set_own o k v).*1 = if decide (k ∈ o.*1) then o.*1 else o.*1 ++ [k].
Proof.
  induction o as [|[k' v'] o IH]; [done|]. cbn [JS.set_own].
  destruct (String.eqb_spec k' k) as [->|Hne]; cbn [fmap list_fmap fst].
  - rewrite decide_True; [done|]. by left.
  - rewrite IH. destruct (decide (k ∈ o.*1)) as [Hin|Hnin].
    + rewrite decide_True; [done|]. by right.
    + rewrite decide_False; [done|]. rewrite elem_of_cons.
      by intros [->|?].
Qed.

Lemma own_set_own {V} (o : JS.Obj V) (k k' : string) (v : V) :
  JS.own (JS.set_own o k v) k'
  = if decide (k = k') then Some v else JS.own o k'.
Proof.
  induction o as [|[k0 v0] o IH]; cbn [JS.set_own JS.own].
  - by destruct (String.eqb_spec k k'), (decide (k = k')).
  - destruct (String.eqb_spec k0 k) as [->|Hne]; cbn [JS.own].
    + by destruct (String.eqb_spec k k'), (decide (k = k')).
    + destruct (String.eqb_spec k0 k') as [->|Hne'].
      * by rewrite decide_False by congruence.
      * exact IH.
Qed.

(** On an ordinary name a write creates or updates the own property, and
    a read finds the own property or nothing. *)
Lemma set_ordinary {V} (o : JS.Obj V) (k : string) (v : V) :
  ordinaryName k → JS.set o k v = JS.set_own o k v.
Proof.
  intros Hk. unfold JS.set.
  destruct (String.eqb_spec k "__proto__") as [->|]; [|done].
  exfalso. apply Hk. unfold JS.Object_prototype_names.
  rewrite !elem_of_cons. tauto.
Qed.

Lemma get_ordinary {V} (o : JS.Obj V) (k : string) :
  ordinaryName k →
  JS.get o k = match JS.own o k with
               | Some v => JS.Own v
               | None => JS.Undefined
               end.
Proof. intros Hk. unfold JS.get. by rewrite bool_decide_false. Qed.

Lemma countKeys_snoc (ks : list string) (k : string) :
  countKeys (ks ++ [k]) = countStep (countKeys ks) k.
Proof. apply foldl_snoc. Qed.

Lemma countKeys_keys_snoc (ks : list string) (k : string) :
  ordinaryName k →
  (countKeys (ks ++ [k])).*1
  = if decide (k ∈ (countKeys ks).*1) then (countKeys ks).*1
    else (countKeys ks).*1 ++ [k].
Proof.
  intros Hk. rewrite countKeys_snoc. unfold countStep.
  rewrite set_ordinary by done. apply set_own_keys.
Qed.

(** The keys of the counter are the names counted, *)
Lemma countKeys_elem_of (ks : list string) (k : string) :
  Forall ordinaryName ks → k ∈ (countKeys ks).*1 ↔ k ∈ ks.
Proof.
  revert k. induction ks as [|k0 ks IH] using rev_ind; intros k Hks.
  - cbn. by rewrite !elem_of_nil.
  - apply Forall_app in Hks as [Hks [Hk0 _]%Forall_cons].
    rewrite countKeys_keys_snoc by done. case_decide as Hin.
    + rewrite elem_of_app, list_elem_of_singleton, IH by done.
      apply IH in Hin; [|done]. split; [by left|]. by intros [?| ->].
    + by rewrite !elem_of_app, IH.
Qed.

(** each once, *)
Lemma countKeys_NoDup (ks : list string) :
  Forall ordinaryName ks → NoDup (countKeys ks).*1.
Proof.
  induction ks as [|k0 ks IH] using rev_ind; intros Hks; [constructor|].
  apply Forall_app in Hks as [Hks [Hk0 _]%Forall_cons].
  rewrite countKeys_keys_snoc by done. case_decide as Hin; [by auto|].
  apply NoDup_app. split; [by auto|]. split; [|apply NoDup_singleton].
  intros k Hk ->%list_elem_of_singleton. done.
Qed.

(** in first-encounter order, *)
Lemma countKeys_order (ks : list string) (a b : string) :
  Forall ordinaryName ks →
  [a; b] `sublist_of` (countKeys ks).*1 → encounteredBefore ks a b.
Proof.
  induction ks as [|k0 ks IH] using rev_ind; intros Hks.
  - by intros ?%sublist_nil_r.
  - apply Forall_app in Hks as [Hks [Hk0 _]%Forall_cons].
    assert (encounteredBefore ks a b → encounteredBefore (ks ++ [k0]) a b)
      as Hext.
    { intros (pre & post & -> & Hb & Hne).
      exists pre, (post ++ [k0]). by rewrite <- app_assoc. }
    rewrite countKeys_keys_snoc by done. case_decide as Hin; [by auto|].
    intros (l1 & l2 & Hl & Hl1 & Hl2)%sublist_app_r.
    destruct l1 as [|x [|y [|z l1]]]; cbn in Hl; [subst l2| | |done].
    + apply sublist_length in Hl2. cbn in Hl2. lia.
    + injection Hl as <- <-.
      apply singleton_sublist_l, list_elem_of_singleton in Hl2 as ->.
      apply singleton_sublist_l in Hl1.
      pose proof (proj1 (countKeys_elem_of ks a Hks) Hl1) as Ha.
      apply list_elem_of_split in Ha as (pre & post & ->).
      exists pre, (post ++ [k0]). split; [by rewrite <- app_assoc|]. split.
      * intros Hb. apply Hin, countKeys_elem_of; [done|].
        rewrite elem_of_app. by left.
      * by intros ->.
    + injection Hl as <- <- <-. auto.
Qed.

Lemma occurrences_snoc (ks : list string) (k k0 : string) :
  occurrences k (ks ++ [k0])
  = occurrences k ks + (if decide (k0 = k) then 1 else 0).
Proof.
  unfold occurrences. rewrite filter_app, length_app, filter_cons, filter_nil.
  by case_decide.
Qed.

Lemma occurrences_pos (ks : list string) (k : string) :
  k ∈ ks → 1 ≤ occurrences k ks.
Proof.
  intros (pre & post & ->)%list_elem_of_split. unfold occurrences.
  rewrite filter_app, filter_cons_True, length_app by done. cbn. lia.
Qed.

Lemma occurrences_absent (ks : list string) (k : string) :
  k ∉ ks → occurrences k ks = 0.
Proof.
  intros Hk. unfold occurrences.
  induction ks as [|k0 ks IH]; [done|].
  apply not_elem_of_cons in Hk as [Hne Hk].
  rewrite filter_cons_False by congruence. auto.
Qed.

(** and the value of a key is the number of its occurrences. *)
Lemma countKeys_own (ks : list string) (k : string) :
  Forall ordinaryName ks →
  JS.own (countKeys ks) k
  = if decide (k ∈ ks) then Some (Count (occurrences k ks)) else None.
Proof.
  revert k. induction ks as [|k0 ks IH] using rev_ind; intros k Hks.
  - by rewrite decide_False by apply not_elem_of_nil.
  - apply Forall_app in Hks as [Hks [Hk0 _]%Forall_cons].
    rewrite countKeys_snoc. unfold countStep.
    rewrite set_ordinary, get_ordinary, own_set_own, occurrences_snoc by done.
    destruct (decide (k0 = k)) as [->|Hne].
    + rewrite decide_True by (rewrite elem_of_app; right; by left).
      rewrite IH by done. destruct (decide (k ∈ ks)) as [Hin|Hnin]; cbn.
      * done.
      * by rewrite occurrences_absent.
    + rewrite IH by done. rewrite Nat.add_0_r.
      destruct (decide (k ∈ ks)) as [Hin|Hnin].
      * rewrite decide_True; [done|]. rewrite elem_of_app. by left.
      * rewrite decide_False; [done|].
        rewrite elem_of_app, list_elem_of_singleton. by intros [?|?].
Qed.

(** ** The keys of an object *)

Lemma arrayIndex_canonical (k : string) (n : N) :
  JS.arrayIndex k = Some n → k = NilZero.string_of_uint (N.to_uint n).
Proof.
  unfold JS.arrayIndex. destruct (NilEmpty.uint_of_string k) as [d|]; [|done].
  destruct (String.eqb_spec (NilZero.string_of_uint (N.to_uint (N.of_uint d))) k)
    as [Heq|]; [|done].
  cbn [andb]. destruct (_ <? _)%N; [|done]. by intros [= <-].
Qed.

Lemma isArrayIndex_true (k : string) :
  JS.isArrayIndex k = true ↔ is_Some (JS.arrayIndex k).
Proof.
  unfold JS.isArrayIndex. destruct (JS.arrayIndex k) as [n|].
  - split; [by eexists|done].
  - split; [done|]. by intros [? ?].
Qed.

Lemma indexValue_ordersBy (l : list string) :
  ordersBy (λ a b, JS.indexValue a - JS.indexValue b)%Z JS.indexValue l.
Proof. by intros a b _ _. Qed.

Lemma Object_keys_elem_of {V} (o : JS.Obj V) (k : string) :
  k ∈ JS.Object_keys o ↔ k ∈ o.*1.
Proof.
  unfold JS.Object_keys. rewrite elem_of_app, sort_perm.
  rewrite !List_filter_decide, !list_elem_of_filter.
  destruct (JS.isArrayIndex k); cbn; intuition discriminate.
Qed.

(** Two keys that [Object.keys] lists in that order are in key order. *)
Lemma Object_keys_pair (ks : list string) (a b : string) :
  Forall ordinaryName ks →
  [a; b] `sublist_of` JS.Object_keys (countKeys ks) → keyOrder ks a b.
Proof.
  intros Hks. unfold JS.Object_keys, keyOrder.
  set (own := (countKeys ks).*1).
  intros (l1 & l2 & Hl & Hl1 & Hl2)%sublist_app_r.
  assert (∀ x l, x ∈ l →
            l `sublist_of` List.filter (λ k, negb (JS.isArrayIndex k)) own →
            JS.arrayIndex x = None) as Hother.
  { intros x l Hx Hsub. eapply elem_of_sublist in Hsub; [|exact Hx].
    rewrite List_filter_decide in Hsub.
    apply list_elem_of_filter in Hsub as [Hsub _].
    apply negb_true_iff in Hsub. unfold JS.isArrayIndex in Hsub.
    by destruct (JS.arrayIndex x). }
  assert (∀ x l, x ∈ l →
            l `sublist_of`
              JS.sort (λ a b, JS.indexValue a - JS.indexValue b)%Z
                (List.filter JS.isArrayIndex own) →
            is_Some (JS.arrayIndex x)) as Hindex.
  { intros x l Hx Hsub. eapply elem_of_sublist in Hsub; [|exact Hx].
    rewrite sort_perm, List_filter_decide in Hsub.
    apply list_elem_of_filter in Hsub as [Hsub _].
    by apply isArrayIndex_true. }
  destruct l1 as [|x [|y [|z l1]]]; cbn in Hl; [subst l2| | |done].
  - rewrite (Hother a _ ltac:(by left) Hl2).
    rewrite (Hother b _ ltac:(by right; left) Hl2).
    apply countKeys_order; [done|]. etrans; [exact Hl2|].
    rewrite List_filter_decide. apply sublist_filter.
  - injection Hl as <- <-.
    destruct (Hindex a _ ltac:(by left) Hl1) as [i ->].
    by rewrite (Hother b _ ltac:(by left) Hl2).
  - injection Hl as <- <- <-.
    destruct (Hindex a _ ltac:(by left) Hl1) as [i Hi].
    destruct (Hindex b _ ltac:(by right; left) Hl1) as [j Hj].
    rewrite Hi, Hj.
    pose proof (sort_pair _ JS.indexValue _ a b (indexValue_ordersBy _) Hl1)
      as [Hle _].
    unfold JS.indexValue in Hle. rewrite Hi, Hj in Hle.
    assert (a ≠ b) as Hne.
    { assert (NoDup [a; b]) as Hnd.
      { eapply sublist_NoDup; [|exact Hl1].
        rewrite sort_perm, List_filter_decide.
        by apply NoDup_filter, countKeys_NoDup. }
      apply NoDup_cons in Hnd as [Hnd _].
      intros ->. apply Hnd. by left. }
    assert (i ≠ j) as Hij.
    { intros ->. apply Hne.
      by rewrite (arrayIndex_canonical a j Hi), (arrayIndex_canonical b j Hj). }
    lia.
Qed.

(** For two names that are no array indices the key order is the
    first-encounter order. *)
Lemma keyOrder_names (ks : list string) (a b : string) :
  JS.arrayIndex a = None → JS.arrayIndex b = None →
  keyOrder ks a b ↔ encounteredBefore ks a b.
Proof. unfold keyOrder. by intros -> ->. Qed.

(** ** The species chart *)

Lemma chartData_names (counts : JS.Obj CountValue) :
  name <$> chartData counts = JS.Object_keys counts.
Proof.
  unfold chartData. rewrite <- list_fmap_compose.
  rewrite <- (list_fmap_id (JS.Object_keys counts)) at 2.
  by apply list_fmap_ext.
Qed.

(** An entry of the chart of the ordinary names [ks] carries a name of
    [ks] and the number of its occurrences. *)
Lemma chartData_entry (ks : list string) (e : Entry) :
  Forall ordinaryName ks →
  e ∈ chartData (countKeys ks) →
  name e ∈ ks ∧ value e = Count (occurrences (name e) ks).
Proof.
  intros Hks. unfold chartData.
  intros (k & -> & Hk)%list_elem_of_fmap. cbn [name value].
  apply (proj1 (Object_keys_elem_of _ _)) in Hk.
  apply (proj1 (countKeys_elem_of ks k Hks)) in Hk.
  split; [done|].
  rewrite get_ordinary by by eapply Forall_forall in Hks.
  by rewrite countKeys_own, decide_True.
Qed.

(** On such a chart the comparator orders by the count, descending. *)
Lemma byValueDesc_ordersBy (ks : list string) :
  Forall ordinaryName ks →
  ordersBy byValueDesc (λ e, (- Z.of_nat (entryCount e))%Z)
           (chartData (countKeys ks)).
Proof.
  intros Hks a b Ha Hb.
  apply (chartData_entry ks a Hks) in Ha as [_ Ha].
  apply (chartData_entry ks b Hks) in Hb as [_ Hb].
  unfold byValueDesc, entryCount. rewrite Ha, Hb. lia.
Qed.

(** C6, as amended. For species names that are not names of members of
    [Object.prototype]: the chart has at most 10 entries; each entry
    carries the number of records of its species, which is at least 1;
    the counts do not increase along the chart; and of two entries with
    equal counts the first is the one whose name comes first in the order
    of [Object.keys], which lists the names that are array indices by
    their number and after them the other names in the order in which the
    records first show them. *)
Theorem speciesData_spec (records : list TreeRecord.t) :
  let names := TreeRecord.species_name <$> records in
  let chart := speciesData (stats records) in
  Forall ordinaryName names →
  length chart ≤ 10
  ∧ (∀ e, e ∈ chart →
       value e = Count (occurrences (name e) names)
       ∧ 1 ≤ occurrences (name e) names)
  ∧ (∀ i j a b,
       i < j → chart !! i = Some a → chart !! j = Some b →
       entryCount b ≤ entryCount a
       ∧ (entryCount a = entryCount b → keyOrder names (name a) (name b))).
Proof.
  intros names chart Hnames. subst chart. cbn [stats speciesData].
  fold names. unfold JS.slice0.
  set (data := chartData (countKeys names)).
  split; [rewrite length_take; lia|]. split.
  - intros e He. apply elem_of_take in He as (i & He & _).
    apply list_elem_of_lookup_2 in He. rewrite sort_perm in He.
    apply chartData_entry in He as [Hname ->]; [|done].
    split; [done|]. by apply occurrences_pos.
  - intros i j a b Hij Ha Hb.
    assert ([a; b] `sublist_of` JS.sort byValueDesc data) as Hab.
    { etrans; [|apply (sublist_take _ 10)]. by eapply lookup_pair_sublist. }
    apply (sort_pair _ _ _ _ _ (byValueDesc_ordersBy names Hnames)) in Hab
      as [Hle Htie].
    split; [lia|]. intros Heq.
    apply Object_keys_pair; [done|]. rewrite <- chartData_names.
    change [name a; name b] with (name <$> [a; b]).
    apply fmap_sublist, Htie. lia.
Qed.

Lemma speciesData_example :
  let names := TreeRecord.species_name <$> teakPineTeak in
  let chart := speciesData (stats teakPineTeak) in
  length chart ≤ 10
  ∧ (∀ e, e ∈ chart →
       value e = Count (occurrences (name e) names)
       ∧ 1 ≤ occurrences (name e) names)
  ∧ (∀ i j a b,
       i < j → chart !! i = Some a → chart !! j = Some b →
       entryCount b ≤ entryCount a
       ∧ (entryCount a = entryCount b → keyOrder names (name a) (name b))).
Proof.
  apply (speciesData_spec teakPineTeak).
  apply (bool_decide_unpack _). vm_compute. exact I.
Defined.

(** The chart of these records: teak twice, pine once. *)
Lemma speciesData_teakPineTeak :
  speciesData (stats teakPineTeak)
  = [ {| name := "teak"; value := Count 2 |};
      {| name := "pine"; value := Count 1 |} ].
Proof. reflexivity. Qed.

(** C6 as stated fails on species names that are numerals: of the records
    of species "2" and "1", one each, the chart lists "1" first, and "1"
    is not met first in the records. *)
Lemma speciesData_numeral_names :
  speciesData (stats numeralSpecies)
  = [ {| name := "1"; value := Count 1 |};
      {| name := "2"; value := Count 1 |} ]
  ∧ TreeRecord.species_name <$> numeralSpecies = ["2"; "1"]
  ∧ ¬ encounteredBefore ["2"; "1"] "1" "2".
Proof.
  split; [reflexivity|]. split; [reflexivity|].
  intros (pre & post & Heq & Hnin & _).
  destruct pre as [|x [|y pre]]; cbn in Heq.
  - discriminate.
  - injection Heq as <- _. apply Hnin. by left.
  - injection Heq as _ _ Heq. by destruct pre.
Qed.

(** * Further properties *)

(** ** The previews *)

Lemma length_append (a b : string) :
  String.length (a +:+ b) = String.length a + String.length b.
Proof.
  induction a as [|c a IH]; [done|].
  rewrite append_String. cbn [String.length]. by rewrite IH.
Qed.

Lemma units_append (a b : string) :
  JS.length (a +:+ b) = JS.length a + JS.length b.
Proof.
  induction a as [|c a IH]; [done|].
  rewrite append_String. cbn [JS.length]. rewrite IH. lia.
Qed.

(** A zero-padded text has the width, or its own length when that is
    more, in UTF-16 units. *)
Lemma length_zeroPadded (width : nat) (digits : string) :
  JS.length (zeroPadded width digits) = width `max` JS.length digits.
Proof.
  unfold zeroPadded.
  assert (∀ k s, JS.length (Nat.iter k (String "0"%char) s)
                 = k + JS.length s) as Hiter.
  { intros k s. induction k as [|k IH]; [done|].
    rewrite Nat.iter_succ. cbn [JS.length]. rewrite IH.
    change (JS.units "0") with 1. lia. }
  rewrite Hiter. lia.
Qed.

Lemma zeroPadded_nonempty (width : nat) (digits : string) :
  digits ≠ "" → zeroPadded width digits ≠ "".
Proof.
  intros Hd. unfold zeroPadded.
  destruct (width - JS.length digits) as [|k]; [done|].
  by rewrite Nat.iter_succ.
Qed.

(** Zero-padding to a width does nothing to what has that width. *)
Lemma zeroPadded_idemp (width : nat) (digits : string) :
  zeroPadded width (zeroPadded width digits) = zeroPadded width digits.
Proof.
  unfold zeroPadded at 1. rewrite length_zeroPadded.
  by replace (width - width `max` JS.length digits) with 0 by lia.
Qed.

Lemma length_nonempty (s : string) : s ≠ "" → 1 ≤ String.length s.
Proof. destruct s; [done|]. cbn. lia. Qed.

(** The placeholder has seven bytes, which stand for three UTF-16
    units. *)
Lemma placeholder_length :
  String.length placeholder = 7 ∧ JS.length placeholder = 3.
Proof. split; reflexivity. Qed.

(** A label is longer than the placeholder. *)
Lemma label_not_placeholder (number plot row sub species : string) :
  number ≠ "" → row ≠ "" → sub ≠ "" →
  number +:+ " " +:+ plot +:+ " " +:+ row +:+ " (" +:+ sub +:+ ") "
    +:+ species
  ≠ placeholder.
Proof.
  intros Hn Hr Hs Heq. apply (f_equal String.length) in Heq.
  rewrite !length_append, (proj1 placeholder_length) in Heq.
  apply length_nonempty in Hn, Hr, Hs. cbn [String.length] in Heq. lia.
Qed.

(** A text that has a character in front of three UTF-16 units or more
    is not the placeholder. *)
Lemma placeholder_not_longer (a b : string) :
  a ≠ "" → 3 ≤ JS.length b → a +:+ b ≠ placeholder.
Proof.
  intros Ha Hb Heq. destruct a as [|c a]; [done|].
  rewrite append_String in Heq. unfold placeholder in Heq.
  injection Heq as _ Heq. apply (f_equal JS.length) in Heq.
  rewrite units_append in Heq.
  set (rest := JS.length (String _ _)) in Heq. vm_compute in rest. lia.
Qed.

Lemma treeCodePreview_empty (plotCode speciesCode treeNumber : string) :
  plotCode = "" ∨ speciesCode = "" ∨ treeNumber = "" →
  treeCodePreview plotCode speciesCode treeNumber = placeholder.
Proof.
  unfold treeCodePreview. intros [Hp|[Hs|Hn]].
  - by rewrite (proj2 (nonempty_false _) Hp).
  - by rewrite (proj2 (nonempty_false _) Hs), orb_true_r.
  - by rewrite (proj2 (nonempty_false _) Hn), !orb_true_r.
Qed.

Lemma string_empty_dec (s : string) : s = "" ∨ s ≠ "".
Proof. destruct s; [by left|by right]. Qed.

(** The placeholder marks an incomplete input and nothing else: the tree
    code of a complete input is never the placeholder. *)
Theorem treeCodePreview_placeholder_iff
    (plotCode speciesCode treeNumber : string) :
  treeCodePreview plotCode speciesCode treeNumber = placeholder
  ↔ plotCode = "" ∨ speciesCode = "" ∨ treeNumber = "".
Proof.
  split; [|apply treeCodePreview_empty].
  destruct (string_empty_dec plotCode) as [?|Hp]; [by auto|].
  destruct (string_empty_dec speciesCode) as [?|Hs]; [by auto|].
  destruct (string_empty_dec treeNumber) as [?|Hn]; [by auto|].
  rewrite treeCodePreview_complete by done. intros Heq.
  apply placeholder_not_longer in Heq; [done..|].
  rewrite units_append, length_zeroPadded. lia.
Qed.

(** Leading zeros that fill the tree number up to three characters do
    not change the tree code: "7", "07" and "007" give one code. *)
Theorem treeCodePreview_leading_zeros
    (plotCode speciesCode treeNumber : string) :
  treeNumber ≠ "" →
  treeCodePreview plotCode speciesCode (zeroPadded 3 treeNumber)
  = treeCodePreview plotCode speciesCode treeNumber.
Proof.
  intros Hn.
  destruct (string_empty_dec plotCode) as [Hp|Hp].
  { by rewrite !treeCodePreview_empty by auto. }
  destruct (string_empty_dec speciesCode) as [Hs|Hs].
  { by rewrite !treeCodePreview_empty by auto. }
  rewrite !treeCodePreview_complete by auto using zeroPadded_nonempty.
  by rewrite zeroPadded_idemp.
Qed.

Lemma treeCodePreview_leading_zeros_example :
  treeCodePreview "PLOT1" "A02" "007" = treeCodePreview "PLOT1" "A02" "7".
Proof.
  apply (treeCodePreview_leading_zeros "PLOT1" "A02" "7"). discriminate.
Defined.

Section TagLabelFacts.
Context `{Catalog}.

Lemma tagLabelPreview_empty
    (plotCode speciesCode treeNumber rowMain rowSub : string) :
  plotCode = "" ∨ speciesCode = "" ∨ treeNumber = "" ∨ rowMain = ""
  ∨ rowSub = "" →
  tagLabelPreview plotCode speciesCode treeNumber rowMain rowSub
  = placeholder.
Proof.
  unfold tagLabelPreview. intros [Hp|[Hs|[Hn|[Hm|Hb]]]].
  - by rewrite (proj2 (nonempty_false _) Hp).
  - by rewrite (proj2 (nonempty_false _) Hs), orb_true_r.
  - by rewrite (proj2 (nonempty_false _) Hn), !orb_true_r.
  - by rewrite (proj2 (nonempty_false _) Hm), !orb_true_r.
  - by rewrite (proj2 (nonempty_false _) Hb), !orb_true_r.
Qed.

Lemma tagLabelPreview_complete
    (plotCode speciesCode treeNumber rowMain rowSub : string) :
  plotCode ≠ "" → speciesCode ≠ "" → treeNumber ≠ "" → rowMain ≠ "" →
  rowSub ≠ "" →
  tagLabelPreview plotCode speciesCode treeNumber rowMain rowSub
  = treeNumber +:+ " "
    +:+ orString (PlotInfo.short <$>
                    JS.find (λ p, String.eqb (PlotInfo.code p) plotCode)
                            PLOT_LIST) plotCode
    +:+ " " +:+ zeroPadded 2 rowMain +:+ " (" +:+ rowSub +:+ ") "
    +:+ orString (SpeciesInfo.name <$>
                    JS.find (λ s, String.eqb (SpeciesInfo.code s) speciesCode)
                            SPECIES_LIST) speciesCode.
Proof.
  intros Hp Hs Hn Hm Hb. unfold tagLabelPreview.
  apply nonempty_true in Hp, Hs, Hn, Hm, Hb.
  rewrite Hp, Hs, Hn, Hm, Hb. cbn [negb orb]. by rewrite padStart_zero.
Qed.

(** The placeholder marks an incomplete input and nothing else: the tag
    label of a complete input is never the placeholder, whatever the
    catalogs hold. *)
Theorem tagLabelPreview_placeholder_iff
    (plotCode speciesCode treeNumber rowMain rowSub : string) :
  tagLabelPreview plotCode speciesCode treeNumber rowMain rowSub
  = placeholder
  ↔ plotCode = "" ∨ speciesCode = "" ∨ treeNumber = "" ∨ rowMain = ""
    ∨ rowSub = "".
Proof.
  split; [|apply tagLabelPreview_empty].
  destruct (string_empty_dec plotCode) as [?|Hp]; [by auto|].
  destruct (string_empty_dec speciesCode) as [?|Hs]; [by auto|].
  destruct (string_empty_dec treeNumber) as [?|Hn]; [by auto|].
  destruct (string_empty_dec rowMain) as [?|Hm]; [by auto|].
  destruct (string_empty_dec rowSub) as [?|Hb]; [by auto 10|].
  rewrite tagLabelPreview_complete by done. intros Heq.
  by apply label_not_placeholder in Heq; [|try apply zeroPadded_nonempty..].
Qed.

(** A plot code and a species code that the catalogs do not list stand
    for themselves in the tag label. *)
Theorem tagLabelPreview_unknown_codes
    (plotCode speciesCode treeNumber rowMain rowSub : string) :
  plotCode ≠ "" → speciesCode ≠ "" → treeNumber ≠ "" → rowMain ≠ "" →
  rowSub ≠ "" →
  Forall (λ p, PlotInfo.code p ≠ plotCode) PLOT_LIST →
  Forall (λ s, SpeciesInfo.code s ≠ speciesCode) SPECIES_LIST →
  tagLabelPreview plotCode speciesCode treeNumber rowMain rowSub
  = treeNumber +:+ " " +:+ plotCode +:+ " " +:+ zeroPadded 2 rowMain
    +:+ " (" +:+ rowSub +:+ ") " +:+ speciesCode.
Proof.
  intros Hp Hs Hn Hm Hb Hplots Hspecies.
  rewrite tagLabelPreview_complete by done.
  rewrite !find_none; [done|..].
  - eapply Forall_impl; [exact Hspecies|]. intros s. by rewrite String.eqb_neq.
  - eapply Forall_impl; [exact Hplots|]. intros p. by rewrite String.eqb_neq.
Qed.

(** A plot and a species that the catalogs list give the label their
    short name and their name: the first entry with the code counts, and
    an empty short name or name gives way to the code. *)
Theorem tagLabelPreview_known_codes
    (plotCode speciesCode treeNumber rowMain rowSub : string)
    (plots1 plots2 : list PlotInfo.t) (plot : PlotInfo.t)
    (species1 species2 : list SpeciesInfo.t) (species : SpeciesInfo.t) :
  plotCode ≠ "" → speciesCode ≠ "" → treeNumber ≠ "" → rowMain ≠ "" →
  rowSub ≠ "" →
  PLOT_LIST = plots1 ++ plot :: plots2 →
  Forall (λ p, PlotInfo.code p ≠ plotCode) plots1 →
  PlotInfo.code plot = plotCode →
  SPECIES_LIST = species1 ++ species :: species2 →
  Forall (λ s, SpeciesInfo.code s ≠ speciesCode) species1 →
  SpeciesInfo.code species = speciesCode →
  tagLabelPreview plotCode speciesCode treeNumber rowMain rowSub
  = treeNumber +:+ " "
    +:+ (if decide (PlotInfo.short plot = "") then plotCode
         else PlotInfo.short plot)
    +:+ " " +:+ zeroPadded 2 rowMain +:+ " (" +:+ rowSub +:+ ") "
    +:+ (if decide (SpeciesInfo.name species = "") then speciesCode
         else SpeciesInfo.name species).
Proof.
  intros Hp Hs Hn Hm Hb Hplots Hpre Hplot Hspecies Hspre Hsp.
  rewrite tagLabelPreview_complete by done. rewrite Hplots, Hspecies.
  rewrite !find_first.
  - cbn [fmap option_fmap option_map orString].
    destruct (PlotInfo.short plot), (SpeciesInfo.name species); done.
  - eapply Forall_impl; [exact Hspre|]. intros s. by rewrite String.eqb_neq.
  - by apply String.eqb_eq.
  - eapply Forall_impl; [exact Hpre|]. intros p. by rewrite String.eqb_neq.
  - by apply String.eqb_eq.
Qed.
End TagLabelFacts.

(** The theorem on a row given by its number, and on a row given by one
    Thai letter, which is one UTF-16 unit (three bytes) and gets one
    zero. *)
Lemma tagLabelPreview_unknown_codes_example :
  tagLabelPreview (H := sampleCatalog) "P9" "C07" "14" "3" "2-A"
  = "14 P9 03 (2-A) C07"
  ∧ tagLabelPreview (H := sampleCatalog) "P9" "C07" "14" "ก" "2-A"
    = "14 P9 0ก (2-A) C07".
Proof.
  split.
  - apply (tagLabelPreview_unknown_codes (H := sampleCatalog)
             "P9" "C07" "14" "3" "2-A");
      first [discriminate | repeat constructor; discriminate].
  - apply (tagLabelPreview_unknown_codes (H := sampleCatalog)
             "P9" "C07" "14" "ก" "2-A");
      first [discriminate | repeat constructor; discriminate].
Defined.

(** The theorem on a row given by one Thai letter and on a plot without
    a short name. *)
Lemma tagLabelPreview_known_codes_example :
  tagLabelPreview (H := sampleCatalog) "P1" "A02" "14" "ก" "2"
  = "14 North 0ก (2) teak"
  ∧ tagLabelPreview (H := sampleCatalog) "P2" "B01" "7" "12" "1"
    = "7 P2 12 (1) mango".
Proof.
  split.
  - apply (tagLabelPreview_known_codes (H := sampleCatalog)
             "P1" "A02" "14" "ก" "2"
             [] [PlotInfo.mk "P2" "Plot two" ""]
             (PlotInfo.mk "P1" "Plot one" "North")
             [] [SpeciesInfo.mk "B01" "mango" GroupB]
             (SpeciesInfo.mk "A02" "teak" GroupA));
      first [discriminate | reflexivity | constructor].
  - apply (tagLabelPreview_known_codes (H := sampleCatalog)
             "P2" "B01" "7" "12" "1"
             [PlotInfo.mk "P1" "Plot one" "North"] []
             (PlotInfo.mk "P2" "Plot two" "")
             [SpeciesInfo.mk "A02" "teak" GroupA] []
             (SpeciesInfo.mk "B01" "mango" GroupB));
      first [discriminate | reflexivity
            | repeat constructor; discriminate].
Defined.

(** A form that passes the validation of [handleSubmit] has a tree code
    and a tag label that are not the placeholder. *)
Theorem validated_previews_complete `{Catalog} (f : FormState) :
  requiredFilled f →
  treeCodePreview (plotCode f) (speciesCode f) (treeNumber f) ≠ placeholder
  ∧ tagLabelPreview (plotCode f) (speciesCode f) (treeNumber f)
                    (rowMain f) (rowSub f) ≠ placeholder.
Proof.
  intros (Hp & Hs & Hn & Hm & Hb & _). split.
  - rewrite treeCodePreview_complete by done. intros Heq.
    apply placeholder_not_longer in Heq; [done..|].
    rewrite units_append, length_zeroPadded. lia.
  - rewrite tagLabelPreview_complete by done. intros Heq.
    by apply label_not_placeholder in Heq;
      [|try apply zeroPadded_nonempty..].
Qed.

Lemma validated_previews_complete_example :
  treeCodePreview "P1" "A02" "14" ≠ placeholder
  ∧ tagLabelPreview (H := sampleCatalog) "P1" "A02" "14" "3" "2" ≠ placeholder.
Proof.
  apply (validated_previews_complete (H := sampleCatalog) sampleForm).
  repeat split; discriminate.
Defined.

(** ** Submitting *)

Lemma handleSubmit_refused
    (post : Promise PostResponse)
    (growth : Promise (GetResponse (list TreeRecord.t)))
    (coord : Promise (GetResponse (list CoordRecord.t))) (s : AppState) :
  plotCode (form s) = "" ∨ speciesCode (form s) = ""
  ∨ treeNumber (form s) = "" ∨ rowMain (form s) = ""
  ∨ rowSub (form s) = "" ∨ recorder (form s) = "" →
  handleSubmit post growth coord s = (setToast requiredToast s, Return ()).
Proof.
  intros Hempty. unfold handleSubmit, bind, getState.
  assert (negb (JS.nonempty (plotCode (form s)))
          || negb (JS.nonempty (speciesCode (form s)))
          || negb (JS.nonempty (treeNumber (form s)))
          || negb (JS.nonempty (rowMain (form s)))
          || negb (JS.nonempty (rowSub (form s)))
          || negb (JS.nonempty (recorder (form s))) = true) as ->; [|done].
  rewrite !orb_true_iff, !negb_true_iff, !nonempty_false. tauto.
Qed.

Lemma handleSubmit_accepted_form (s : AppState) :
  requiredFilled (form s) →
  negb (JS.nonempty (plotCode (form s)))
  || negb (JS.nonempty (speciesCode (form s)))
  || negb (JS.nonempty (treeNumber (form s)))
  || negb (JS.nonempty (rowMain (form s)))
  || negb (JS.nonempty (rowSub (form s)))
  || negb (JS.nonempty (recorder (form s))) = false.
Proof.
  intros (Hp & Hs & Hn & Hm & Hb & Hr).
  apply nonempty_true in Hp, Hs, Hn, Hm, Hb, Hr.
  by rewrite Hp, Hs, Hn, Hm, Hb, Hr.
Qed.

(** A submission with a required field left empty does nothing but show
    the notice that asks for the fields: the collections, the form and
    the loading flag stay as they are, and what the network would answer
    plays no part (no request is made). *)
Theorem submit_refused_by_validation
    (write : Promise unit)
    (growth : Promise (FetchResponse.t (GetResponse (list TreeRecord.t))))
    (coord : Promise (FetchResponse.t (GetResponse (list CoordRecord.t))))
    (s : AppState) :
  plotCode (form s) = "" ∨ speciesCode (form s) = ""
  ∨ treeNumber (form s) = "" ∨ rowMain (form s) = ""
  ∨ rowSub (form s) = "" ∨ recorder (form s) = "" →
  submit write growth coord s = (setToast requiredToast s, Return ()).
Proof. apply handleSubmit_refused. Qed.

(** When the write request fails, [apiPost] resolves with
    [success: false], and the submission ends without a notice: the form,
    the collections and the toast stay as they are and the loading flag
    is off. *)
Theorem submit_failed_write_is_silent
    (message : string)
    (growth : Promise (FetchResponse.t (GetResponse (list TreeRecord.t))))
    (coord : Promise (FetchResponse.t (GetResponse (list CoordRecord.t))))
    (s : AppState) :
  requiredFilled (form s) →
  submit (Rejected message) growth coord s = (setIsLoading false s, Return ()).
Proof.
  intros Hform. unfold submit, handleSubmit, bind, getState.
  by rewrite (handleSubmit_accepted_form s Hform).
Qed.

(** An accepted submission ends in the state that clearing the form and
    reloading give: the notice of the save is replaced by the notice of
    the reload. *)
Theorem submit_accepted_is_clear_then_reload
    (growth : Promise (FetchResponse.t (GetResponse (list TreeRecord.t))))
    (coord : Promise (FetchResponse.t (GetResponse (list CoordRecord.t))))
    (s : AppState) :
  requiredFilled (form s) →
  (submit (Fulfilled ()) growth coord s).1
  = (reload growth coord (clearForm s).1).1.
Proof.
  intros Hform. unfold submit, reload, handleSubmit, bind, getState.
  rewrite (handleSubmit_accepted_form s Hform).
  destruct (apiGet growth) as [[[] gdata]|gerr],
           (apiGet coord) as [[[] cdata]|cerr];
    vm_compute; reflexivity.
Qed.

(** After an accepted submission the form is empty, so submitting once
    more at once is refused by the validation. *)
Theorem submit_twice_is_refused
    (write2 : Promise unit)
    (growth growth2 : Promise (FetchResponse.t (GetResponse (list TreeRecord.t))))
    (coord coord2 : Promise (FetchResponse.t (GetResponse (list CoordRecord.t))))
    (s : AppState) :
  requiredFilled (form s) →
  let s' := (submit (Fulfilled ()) growth coord s).1 in
  submit write2 growth2 coord2 s' = (setToast requiredToast s', Return ()).
Proof.
  intros Hform s'. apply handleSubmit_refused. left. subst s'.
  unfold submit, handleSubmit, bind, getState.
  rewrite (handleSubmit_accepted_form s Hform).
  destruct (apiGet growth) as [[[] gdata]|gerr],
           (apiGet coord) as [[[] cdata]|cerr];
    vm_compute; reflexivity.
Qed.

Lemma submit_refused_by_validation_example :
  submit (Fulfilled ()) growthSheet offline (clearForm sampleState).1
  = (setToast requiredToast (clearForm sampleState).1, Return ()).
Proof.
  apply (submit_refused_by_validation (Fulfilled ()) growthSheet offline
           (clearForm sampleState).1).
  left. reflexivity.
Defined.

Lemma submit_failed_write_is_silent_example :
  submit offline growthSheet offline sampleState
  = (setIsLoading false sampleState, Return ()).
Proof.
  apply (submit_failed_write_is_silent "Failed to fetch" growthSheet offline
           sampleState).
  repeat split; discriminate.
Defined.

Lemma submit_accepted_is_clear_then_reload_example :
  (submit (Fulfilled ()) growthSheet offline sampleState).1
  = (reload growthSheet offline (clearForm sampleState).1).1.
Proof.
  apply (submit_accepted_is_clear_then_reload growthSheet offline sampleState).
  repeat split; discriminate.
Defined.

Lemma submit_twice_is_refused_example :
  let s' := (submit (Fulfilled ()) growthSheet offline sampleState).1 in
  submit (Fulfilled ()) growthSheet offline s'
  = (setToast requiredToast s', Return ()).
Proof.
  apply (submit_twice_is_refused (Fulfilled ()) growthSheet growthSheet
           offline offline sampleState).
  repeat split; discriminate.
Defined.

(** ** Reloading *)

(** What a reload shows and leaves: the loading flag is off, the view is
    the one it was, and the notice says "synced" exactly when neither
    request was rejected, whether or not a response carried
    [success: true]; a rejection gives the notice of the failure with its
    message. *)
Theorem fetchData_notice
    (growth : Promise (GetResponse (list TreeRecord.t)))
    (coord : Promise (GetResponse (list CoordRecord.t))) (s : AppState) :
  let s' := (fetchData growth coord s).1 in
  isLoading s' = false ∧ activeView s' = activeView s ∧
  toast s'
  = Some (match growth, coord with
          | Fulfilled _, Fulfilled _ =>
              {| msg := "Data synced with cloud"; type := ToastType.success |}
          | Rejected message, _ | Fulfilled _, Rejected message =>
              {| msg := "Sync failed: " +:+ message;
                 type := ToastType.error |}
          end).
Proof.
  destruct growth as [[[] gdata]|gerr], coord as [[[] cdata]|cerr];
    repeat split.
Qed.

(** Reloading twice with the same answers gives what reloading once
    gives. *)
Theorem fetchData_idempotent
    (growth : Promise (GetResponse (list TreeRecord.t)))
    (coord : Promise (GetResponse (list CoordRecord.t))) (s : AppState) :
  fetchData growth coord (fetchData growth coord s).1
  = fetchData growth coord s.
Proof.
  destruct growth as [[[] gdata]|gerr], coord as [[[] cdata]|cerr];
    vm_compute; reflexivity.
Qed.

(** ** The service *)

(** [apiGet] resolves exactly when the request resolved, the response
    is [ok] and its body parses, and then to the body as it is (also to
    one that carries [success: false]). Every other outcome is a
    rejection whose message starts with "Could not fetch data: "; for a
    response that is not [ok] the message names the status. *)
Theorem apiGet_outcomes {A} (fetched : Promise (FetchResponse.t A)) :
  (∀ body, apiGet fetched = Fulfilled body
           ↔ ∃ res, fetched = Fulfilled res ∧ FetchResponse.ok res = true
                    ∧ FetchResponse.json res = Fulfilled body)
  ∧ (∀ message, apiGet fetched = Rejected message →
                ∃ cause, message = "Could not fetch data: " +:+ cause)
  ∧ (∀ res, fetched = Fulfilled res → FetchResponse.ok res = false →
            apiGet fetched
            = Rejected ("Could not fetch data: HTTP Error: "
                        +:+ JS.toString (FetchResponse.status res))).
Proof.
  split; [|split].
  - intros body. split.
    + destruct fetched as [[[] st [b|e]]|e]; try discriminate.
      intros [= <-]. by eexists.
    + by intros (res & -> & Hok & Hjson); destruct res as [ok st js];
        cbn in *; subst.
  - intros message.
    destruct fetched as [[[] st [b|e]]|e]; try discriminate;
      intros [= <-]; by eexists.
  - by intros [ok st js] -> Hok; cbn in *; subst.
Qed.

Lemma apiGet_outcomes_example :
  apiGet growthSheet
  = Fulfilled {| get_success := true; data := teakPineTeak |}
  ∧ apiGet (Fulfilled (FetchResponse.mk false 503 (@offline nat)))
    = Rejected "Could not fetch data: HTTP Error: 503".
Proof.
  split.
  - apply (proj1 (apiGet_outcomes growthSheet)). by eexists.
  - by apply (proj2 (proj2 (apiGet_outcomes
                (Fulfilled (FetchResponse.mk false 503 (@offline nat)))))
                (FetchResponse.mk false 503 (@offline nat))).
Defined.

(** A reload whose request for the growth records is answered with a
    status that is not [ok] changes neither collection: it shows the
    failure with the status and turns the loading flag off. *)
Theorem reload_http_error
    (res : FetchResponse.t (GetResponse (list TreeRecord.t)))
    (coord : Promise (FetchResponse.t (GetResponse (list CoordRecord.t))))
    (s : AppState) :
  FetchResponse.ok res = false →
  let s' := (reload (Fulfilled res) coord s).1 in
  records s' = records s ∧ coordRecords s' = coordRecords s ∧
  form s' = form s ∧ filters s' = filters s ∧ isLoading s' = false ∧
  toast s'
  = Some {| msg := "Sync failed: Could not fetch data: HTTP Error: "
                   +:+ JS.toString (FetchResponse.status res);
            type := ToastType.error |}.
Proof.
  destruct res as [ok st js]. cbn [FetchResponse.ok FetchResponse.status].
  intros ->. repeat split.
Qed.

Lemma reload_http_error_example :
  let s' := (reload (Fulfilled (FetchResponse.mk false 503 offline))
                    offline sampleState).1 in
  records s' = records sampleState ∧
  coordRecords s' = coordRecords sampleState ∧
  form s' = form sampleState ∧ filters s' = filters sampleState ∧
  isLoading s' = false ∧
  toast s'
  = Some {| msg := "Sync failed: Could not fetch data: HTTP Error: 503";
            type := ToastType.error |}.
Proof.
  apply (reload_http_error (FetchResponse.mk false 503 offline) offline
           sampleState).
  reflexivity.
Defined.

(** ** The charts *)

Lemma Object_keys_perm {V} (o : JS.Obj V) : JS.Object_keys o ≡ₚ o.*1.
Proof.
  unfold JS.Object_keys. rewrite sort_perm, !List_filter_decide.
  rewrite <- (filter_app_complement (λ k, JS.isArrayIndex k = true) (o.*1))
    at 3.
  f_equiv. rewrite (list_filter_iff _ (λ k, JS.isArrayIndex k ≠ true)); [done|].
  intros k. by destruct (JS.isArrayIndex k).
Qed.

(** The chart of the ordinary names [ks], before it is sorted, lists
    each name of [ks] once. *)
Lemma chartData_names_perm (ks : list string) :
  Forall ordinaryName ks →
  name <$> chartData (countKeys ks) ≡ₚ remove_dups ks.
Proof.
  intros Hks. rewrite chartData_names, Object_keys_perm.
  apply NoDup_Permutation.
  - by apply countKeys_NoDup.
  - apply NoDup_remove_dups.
  - intros k. by rewrite countKeys_elem_of, elem_of_remove_dups.
Qed.

Lemma sum_indicator (c : string) (K : list string) :
  NoDup K → c ∈ K →
  sum_list_with (λ k, if decide (c = k) then 1 else 0) K = 1.
Proof.
  induction 1 as [|k K Hk HK IH]; [by intros ?%elem_of_nil|].
  cbn [sum_list_with]. intros [->|Hc]%elem_of_cons.
  - rewrite decide_True by done.
    assert (sum_list_with (λ k', if decide (k = k') then 1 else 0) K = 0)
      as ->; [|done].
    clear IH HK. induction K as [|k' K IH]; [done|].
    apply not_elem_of_cons in Hk as [Hne Hk]. cbn [sum_list_with].
    rewrite decide_False by done. by rewrite IH.
  - rewrite decide_False by (intros ->; done). by rewrite IH.
Qed.

(** Over a list that holds each name of [ks] once, the occurrences add
    up to the length of [ks]. *)
Lemma sum_occurrences (ks K : list string) :
  NoDup K → (∀ k, k ∈ ks → k ∈ K) →
  sum_list_with (λ k, occurrences k ks) K = length ks.
Proof.
  intros HK. induction ks as [|c ks IH]; intros Hin.
  - unfold occurrences. induction K as [|k K IHK]; [done|].
    apply NoDup_cons in HK as [_ HK]. cbn [sum_list_with].
    rewrite IHK; [done|done|]. by intros ? ?%elem_of_nil.
  - assert (sum_list_with (λ k, occurrences k (c :: ks)) K
            = sum_list_with (λ k, if decide (c = k) then 1 else 0) K
              + sum_list_with (λ k, occurrences k ks) K) as ->.
    { clear. induction K as [|k K IHK]; [done|]. cbn [sum_list_with].
      rewrite IHK. unfold occurrences. rewrite filter_cons.
      destruct (decide (c = k)); cbn [length]; lia. }
    rewrite sum_indicator, IH; [done| |done|].
    + intros k Hk. apply Hin. by right.
    + apply Hin. by left.
Qed.

Lemma chartData_sum (ks : list string) :
  Forall ordinaryName ks →
  sum_list_with entryCount (chartData (countKeys ks)) = length ks.
Proof.
  intros Hks.
  assert (sum_list_with entryCount (chartData (countKeys ks))
          = sum_list_with (λ k, occurrences k ks)
              (JS.Object_keys (countKeys ks))) as ->.
  { pose proof (chartData_entry ks) as Hentry. unfold chartData in *.
    induction (JS.Object_keys (countKeys ks)) as [|k K IH]; [done|].
    cbn [fmap list_fmap sum_list_with]. rewrite IH.
    - f_equal. unfold entryCount.
      by rewrite (proj2 (Hentry _ Hks ltac:(by left))).
    - intros e He ?. apply Hentry; [done|]. by right. }
  rewrite Object_keys_perm. apply sum_occurrences.
  - by apply countKeys_NoDup.
  - intros k Hk. by apply countKeys_elem_of.
Qed.

(** The chart of the plots, for plot codes that are no names of members
    of [Object.prototype]: it lists every plot of the records once,
    whatever their number, each with the number of its records, and the
    counts do not increase along the chart. *)
Theorem plotData_spec (records : list TreeRecord.t) :
  let codes := TreeRecord.plot_code <$> records in
  let chart := plotData (stats records) in
  Forall ordinaryName codes →
  name <$> chart ≡ₚ remove_dups codes
  ∧ (∀ e, e ∈ chart → value e = Count (occurrences (name e) codes))
  ∧ (∀ i j a b,
       i < j → chart !! i = Some a → chart !! j = Some b →
       entryCount b ≤ entryCount a).
Proof.
  intros codes chart Hcodes. subst chart. cbn [stats plotData]. fold codes.
  split; [|split].
  - by rewrite sort_perm, chartData_names_perm.
  - intros e He. rewrite sort_perm in He.
    by apply chartData_entry in He as [_ ->].
  - intros i j a b Hij Ha Hb.
    pose proof (lookup_pair_sublist _ i j a b Hij Ha Hb) as Hab.
    apply (sort_pair _ _ _ _ _ (byValueDesc_ordersBy codes Hcodes)) in Hab
      as [Hle _].
    lia.
Qed.

Lemma plotData_spec_example :
  let codes := TreeRecord.plot_code <$> teakPineTeak in
  let chart := plotData (stats teakPineTeak) in
  name <$> chart ≡ₚ remove_dups codes
  ∧ (∀ e, e ∈ chart → value e = Count (occurrences (name e) codes))
  ∧ (∀ i j a b,
       i < j → chart !! i = Some a → chart !! j = Some b →
       entryCount b ≤ entryCount a).
Proof.
  apply (plotData_spec teakPineTeak).
  apply (bool_decide_unpack _). vm_compute. exact I.
Defined.

(** The counts of the chart of the plots add up to the total. *)
Theorem plotData_counts_sum (records : list TreeRecord.t) :
  Forall ordinaryName (TreeRecord.plot_code <$> records) →
  sum_list_with entryCount (plotData (stats records))
  = total (stats records).
Proof.
  intros Hcodes. cbn [stats plotData total].
  by rewrite sort_perm, chartData_sum, length_fmap.
Qed.

Lemma plotData_counts_sum_example :
  sum_list_with entryCount (plotData (stats oneAliveSevenDead))
  = total (stats oneAliveSevenDead).
Proof.
  apply (plotData_counts_sum oneAliveSevenDead).
  apply (bool_decide_unpack _). vm_compute. exact I.
Defined.

(** The chart of the species keeps the largest counts: it has 10 entries,
    or as many as there are species when these are fewer, and a species
    that it leaves out has no more records than any species it shows. *)
Theorem speciesData_keeps_largest (records : list TreeRecord.t) :
  let names := TreeRecord.species_name <$> records in
  let chart := speciesData (stats records) in
  Forall ordinaryName names →
  length chart = 10 `min` length (remove_dups names)
  ∧ (∀ k e, k ∈ names → k ∉ name <$> chart → e ∈ chart →
            occurrences k names ≤ entryCount e).
Proof.
  intros names chart Hnames. subst chart. cbn [stats speciesData].
  fold names. unfold JS.slice0.
  set (data := chartData (countKeys names)).
  split.
  - rewrite length_take, sort_perm.
    rewrite <- (length_fmap name data). unfold data.
    by rewrite chartData_names_perm.
  - intros k e Hk Hout He.
    assert (∃ ek, ek ∈ data ∧ name ek = k
                  ∧ entryCount ek = occurrences k names)
      as (ek & Hek & Hname & Hcount).
    { assert (k ∈ name <$> data) as (ek & -> & Hek)%list_elem_of_fmap.
      { unfold data. rewrite chartData_names_perm by done.
        by apply elem_of_remove_dups. }
      exists ek. split; [done|]. split; [done|].
      unfold entryCount.
      by rewrite (proj2 (chartData_entry names ek Hnames Hek)). }
    pose proof (sort_sorted byValueDesc _ data
                  (byValueDesc_ordersBy names Hnames)) as Hsorted.
    rewrite <- (take_drop 10 (JS.sort byValueDesc data)) in Hsorted.
    assert (ek ∈ drop 10 (JS.sort byValueDesc data)) as Hdrop.
    { assert (ek ∈ JS.sort byValueDesc data) as Hin by by rewrite sort_perm.
      rewrite <- (take_drop 10 (JS.sort byValueDesc data)) in Hin.
      apply elem_of_app in Hin as [Hin|Hin]; [|done].
      exfalso. apply Hout. rewrite <- Hname. by apply list_elem_of_fmap_2. }
    pose proof (StronglySorted_app_1_elem_of _ _ _ e ek Hsorted He Hdrop)
      as Hle.
    unfold ascendingBy in Hle. lia.
Qed.

(** The theorem on eleven species: the chart shows ten of them. *)
Lemma speciesData_keeps_largest_example :
  let names := TreeRecord.species_name <$> elevenSpecies in
  let chart := speciesData (stats elevenSpecies) in
  length chart = 10 `min` length (remove_dups names)
  ∧ (∀ k e, k ∈ names → k ∉ name <$> chart → e ∈ chart →
            occurrences k names ≤ entryCount e).
Proof.
  apply (speciesData_keeps_largest elevenSpecies).
  apply (bool_decide_unpack _). vm_compute. exact I.
Defined.

(** Every record is of group A or of group B, so the two group counts of
    the statistics view add up to the total. *)
Theorem groupCounts_sum (records : list TreeRecord.t) :
  groupCount GroupA records + groupCount GroupB records
  = total (stats records).
Proof.
  cbn [stats total]. unfold groupCount.
  induction records as [|r records IH]; [done|].
  cbn [List.filter]. destruct (TreeRecord.species_group r); cbn; lia.
Qed.

(** ** The filters *)

Lemma List_filter_filter {A} (f g : A → bool) (l : list A) :
  List.filter f (List.filter g l) = List.filter (λ x, g x && f x) l.
Proof.
  induction l as [|x l IH]; [done|]. cbn [List.filter].
  destruct (g x); cbn [List.filter andb]; [|done].
  by destruct (f x); rewrite IH.
Qed.

Lemma List_filter_sublist {A} (f : A → bool) (l : list A) :
  List.filter f l `sublist_of` l.
Proof.
  induction l as [|x l IH]; [constructor|]. cbn [List.filter].
  destruct (f x); by constructor.
Qed.

Section FilterFacts.
Context `{JS.CaseMapping}.

(** Applying the search, the plot filter and the status filter one after
    the other, in this order or in the reverse one, gives the records that
    the three give together. *)
Theorem filteredRecords_one_by_one
    (records : list TreeRecord.t) (searchTerm plotFilter statusFilter : string) :
  filteredRecords
    (filteredRecords (filteredRecords records searchTerm "" "")
                     "" plotFilter "")
    "" "" statusFilter
  = filteredRecords records searchTerm plotFilter statusFilter
  ∧ filteredRecords
      (filteredRecords (filteredRecords records "" "" statusFilter)
                       "" plotFilter "")
      searchTerm "" ""
    = filteredRecords records searchTerm plotFilter statusFilter.
Proof.
  unfold filteredRecords. rewrite !List_filter_filter.
  split; apply List.filter_ext; intros r; unfold matchesFilters;
    cbn [JS.nonempty negb orb andb]; rewrite ?andb_true_r.
  - apply andb_assoc.
  - etrans; [apply andb_comm|]. f_equal. apply andb_comm.
Qed.

(** The filtered records are records of the table, in the order of the
    table; filtering them again with the same filters changes nothing,
    and with the three filters empty every record is kept. *)
Theorem filteredRecords_narrows
    (records : list TreeRecord.t) (searchTerm plotFilter statusFilter : string) :
  filteredRecords records searchTerm plotFilter statusFilter
    `sublist_of` records
  ∧ filteredRecords
      (filteredRecords records searchTerm plotFilter statusFilter)
      searchTerm plotFilter statusFilter
    = filteredRecords records searchTerm plotFilter statusFilter
  ∧ filteredRecords records "" "" "" = records.
Proof.
  unfold filteredRecords. split; [apply List_filter_sublist|]. split.
  - rewrite List_filter_filter. apply List.filter_ext. intros r.
    by destruct (matchesFilters _ _ _ r).
  - induction records as [|r records IH]; [done|].
    cbn [List.filter]. unfold matchesFilters at 1.
    cbn [JS.nonempty negb orb andb]. by rewrite IH.
Qed.

(** The status filter and the statistics agree: filtering by ["alive"]
    alone leaves as many records as the statistics count alive, filtering
    by ["dead"] as many as they count dead, and a status filter that is
    neither of them and not empty leaves no record. *)
Theorem filteredRecords_status_counts (records : list TreeRecord.t) :
  length (filteredRecords records "" "" "alive") = alive (stats records)
  ∧ length (filteredRecords records "" "" "dead") = dead (stats records)
  ∧ ∀ statusFilter,
      statusFilter ≠ "" → statusFilter ≠ "alive" → statusFilter ≠ "dead" →
      filteredRecords records "" "" statusFilter = [].
Proof.
  unfold filteredRecords. cbn [stats alive dead]. split; [|split].
  - f_equal. apply List.filter_ext. intros r. unfold matchesFilters, hasStatus.
    cbn [JS.nonempty negb orb andb].
    by destruct (TreeRecord.status r) as [[]|].
  - f_equal. apply List.filter_ext. intros r. unfold matchesFilters, hasStatus.
    cbn [JS.nonempty negb orb andb].
    by destruct (TreeRecord.status r) as [[]|].
  - intros statusFilter Hne Halive Hdead.
    induction records as [|r records IH]; [done|]. cbn [List.filter].
    assert (matchesFilters "" "" statusFilter r = false) as ->; [|done].
    unfold matchesFilters. cbn [JS.nonempty negb orb andb].
    apply (proj2 (nonempty_true _)) in Hne. rewrite Hne. cbn [negb orb].
    destruct (TreeRecord.status r) as [[]|]; [| |done];
      apply String.eqb_neq; cbn [Status.to_string]; congruence.
Qed.

End FilterFacts.

(** ** The markers of the map *)

(** A marker is never both alive and dead, and its colour, class and
    status text go together: green for alive, red for dead and grey for
    neither. *)
Theorem marker_colour_cases (r : CoordRecord.t) (records : list TreeRecord.t) :
  let m := marker r records in
  (isAlive m = true ∧ isDead m = false ∧ color m = "#22c55e"
   ∧ statusClass m = "text-green-600" ∧ statusText m = text_alive)
  ∨ (isAlive m = false ∧ isDead m = true ∧ color m = "#ef4444"
     ∧ statusClass m = "text-red-600" ∧ statusText m = text_dead)
  ∨ (isAlive m = false ∧ isDead m = false ∧ color m = "#9ca3af"
     ∧ statusClass m = "text-gray-400" ∧ statusText m = placeholder).
Proof.
  cbn zeta. unfold marker, hasStatus.
  destruct (resolveGrowthFor r records) as [g|]; cbn; [|by auto 10].
  destruct (TreeRecord.status g) as [[]|]; cbn; by auto 10.
Qed.

(** The marker of a coordinate record takes its status from the first
    growth record with its tree code: the records before it, which do not
    match, and all the records after it, matching or not, change
    nothing. *)
Theorem marker_first_match
    (r : CoordRecord.t) (pre post : list TreeRecord.t) (g : TreeRecord.t) :
  Forall (λ g', TreeRecord.tree_code g' ≠ CoordRecord.tree_code r) pre →
  TreeRecord.tree_code g = CoordRecord.tree_code r →
  marker r (pre ++ g :: post) = marker r [g]
  ∧ (isAlive (marker r (pre ++ g :: post)) = true
     ↔ TreeRecord.status g = Some Status.alive)
  ∧ (isDead (marker r (pre ++ g :: post)) = true
     ↔ TreeRecord.status g = Some Status.dead).
Proof.
  intros Hpre Hg.
  assert (resolveGrowthFor r (pre ++ g :: post) = Some g) as Hfind.
  { apply find_first; [by apply tree_code_differs|by apply String.eqb_eq]. }
  assert (resolveGrowthFor r [g] = Some g) as Hone.
  { apply (find_first _ [] g []); [constructor|by apply String.eqb_eq]. }
  unfold marker. rewrite Hfind, Hone. cbn [isAlive isDead]. unfold hasStatus.
  split; [done|].
  destruct (TreeRecord.status g) as [[]|]; cbn; intuition congruence.
Qed.

(** The theorem on a tree measured twice: the first growth record of
    its code has no status and a later one is alive; the marker is that of
    the first. *)
Lemma marker_first_match_example :
  let r := sampleCoord "P1A02002" in
  let pre := [ sampleTree "P1A02001" "P1" "teak" (Some Status.alive);
               sampleTree "P1A03001" "P1" "pine" (Some Status.dead) ] in
  let g := sampleTree "P1A02002" "P1" "teak" None in
  let post := [ sampleTree "P1A02002" "P1" "teak" (Some Status.alive) ] in
  marker r (pre ++ g :: post) = marker r [g]
  ∧ (isAlive (marker r (pre ++ g :: post)) = true
     ↔ TreeRecord.status g = Some Status.alive)
  ∧ (isDead (marker r (pre ++ g :: post)) = true
     ↔ TreeRecord.status g = Some Status.dead).
Proof.
  intros r pre g post. apply (marker_first_match r pre post g).
  - repeat constructor; discriminate.
  - reflexivity.
Defined.
